(** * Relay server (relay_server.js): shallow embedding and verification

    The relay keeps two JavaScript [Map]s, [pcConnections] and
    [phoneConnections], from pairing token to WebSocket.  Its
    ['connection'] listener validates the query parameters [token] and
    [client], registers the socket and installs the ['message'], ['close']
    and ['error'] listeners, which call [handleMessage] and
    [handleDisconnection].

    The embedding follows the source function by function.  Handlers are
    computations in a small state-and-exception monad over the server state;
    every call the relay makes on a transport ([ws.send], [ws.close]) and
    every write to one of the two maps is appended, in program order, to a
    trace.  [console.log] and [console.error] are not modelled.  The event
    loop is a function [dispatch] that runs one listener to completion, as
    the single-threaded runtime does.

    The query and the mutation of convex/messages.ts, which keep the
    history of the commands a user issued, are embedded over a table that
    is a list of documents. *)

From Stdlib Require Import ZArith Ascii String.
From stdpp Require Import base gmap strings list fin_maps.

Open Scope Z_scope.
Open Scope string_scope.
Open Scope list_scope.

(** ** Values of the JavaScript runtime *)

(** [WebSocket.readyState] of the ws library. *)
Inductive ReadyState := CONNECTING | OPEN | CLOSING | CLOSED.

#[global] Instance ReadyState_eq_dec : EqDecision ReadyState.
Proof. solve_decision. Defined.

(** A WebSocket object is identified by its reference. *)
Abbreviation WebSocket := positive (only parsing).

(** A value of [parsedUrl.query]: [url.parse(_, true)] yields [undefined]
    for an absent parameter, a string for one given once, and an array of
    strings (an object, with its own identity) for one given repeatedly. *)
Inductive QueryValue :=
| QUndefined
| QString (s : string)
| QArray (ref : positive) (items : list string).

(** A key of the two maps.  A JavaScript [Map] compares string keys by
    content and object keys by reference. *)
Abbreviation Token := (string + positive)%type (only parsing).

(** The result of [JSON.parse]. *)
#[warnings="-register-all"]
Inductive JSValue :=
| JNull
| JBool (b : bool)
| JNumber (lexeme : string)
| JString (s : string)
| JArray (items : list JSValue)
| JObject (fields : list (string * JSValue)).

(** Own property lookup on a parsed object. *)
Fixpoint field (name : string) (fields : list (string * JSValue)) : option JSValue :=
  match fields with
  | [] => None
  | (k, v) :: rest => if String.eqb k name then Some v else field name rest
  end.

(** [v === 'auth'] for [v] the result of a property read ([None] is
    [undefined]). *)
Definition is_auth (v : option JSValue) : bool :=
  match v with
  | Some (JString s) => String.eqb s "auth"
  | _ => false
  end.

(** ** Server state and trace *)

Inductive MapName := PcConnections | PhoneConnections.

Inductive Effect :=
| WsSend (ws : WebSocket) (data : string)
| WsClose (ws : WebSocket) (code : Z) (reason : string)
| MapSet (m : MapName) (token : Token) (ws : WebSocket)
| MapDelete (m : MapName) (token : Token).

#[global] Instance MapName_eq_dec : EqDecision MapName.
Proof. solve_decision. Defined.

#[global] Instance Effect_eq_dec : EqDecision Effect.
Proof. solve_decision. Defined.

Record RelayServer := mkRelayServer {
  pcConnections : gmap Token WebSocket;
  phoneConnections : gmap Token WebSocket;
  (** [readyState] of every socket handed to the relay so far *)
  readyState : gmap WebSocket ReadyState;
  (** the closure variables [(token, clientType)] captured by the
      listeners installed on a socket *)
  listeners : gmap WebSocket (Token * string);
  (** calls made so far, oldest first *)
  trace : list Effect
}.

(** The state built by [constructor()]. *)
Definition new_RelayServer : RelayServer :=
  mkRelayServer ∅ ∅ ∅ ∅ [].

Definition set_pcConnections (f : gmap Token WebSocket -> gmap Token WebSocket)
    (st : RelayServer) : RelayServer :=
  mkRelayServer (f (pcConnections st)) (phoneConnections st) (readyState st)
                (listeners st) (trace st).

Definition set_phoneConnections (f : gmap Token WebSocket -> gmap Token WebSocket)
    (st : RelayServer) : RelayServer :=
  mkRelayServer (pcConnections st) (f (phoneConnections st)) (readyState st)
                (listeners st) (trace st).

Definition set_readyState (f : gmap WebSocket ReadyState -> gmap WebSocket ReadyState)
    (st : RelayServer) : RelayServer :=
  mkRelayServer (pcConnections st) (phoneConnections st) (f (readyState st))
                (listeners st) (trace st).

Definition set_listeners (f : gmap WebSocket (Token * string) -> gmap WebSocket (Token * string))
    (st : RelayServer) : RelayServer :=
  mkRelayServer (pcConnections st) (phoneConnections st) (readyState st)
                (f (listeners st)) (trace st).

Definition emit (e : Effect) (st : RelayServer) : RelayServer :=
  mkRelayServer (pcConnections st) (phoneConnections st) (readyState st)
                (listeners st) (trace st ++ [e]).

(** ** The monad of handlers *)

Inductive Outcome (A : Type) :=
| Normal (a : A)
| Thrown.
Arguments Normal {A} a.
Arguments Thrown {A}.

Definition Eff (A : Type) : Type := RelayServer -> Outcome A * RelayServer.

Definition ret {A} (a : A) : Eff A := fun st => (Normal a, st).

Definition bind {A B} (m : Eff A) (k : A -> Eff B) : Eff B :=
  fun st =>
    match m st with
    | (Normal a, st') => k a st'
    | (Thrown, st') => (Thrown, st')
    end.

Definition throw {A} : Eff A := fun st => (Thrown, st).

(** [try { body } catch (error) { handler }] *)
Definition try_catch (body handler : Eff unit) : Eff unit :=
  fun st =>
    match body st with
    | (Normal a, st') => (Normal a, st')
    | (Thrown, st') => handler st'
    end.

Definition modify (f : RelayServer -> RelayServer) : Eff unit :=
  fun st => (Normal tt, f st).

Definition gets {A} (f : RelayServer -> A) : Eff A :=
  fun st => (Normal (f st), st).

Definition exec {A} (m : Eff A) (st : RelayServer) : RelayServer := snd (m st).

Declare Scope eff_scope.
Delimit Scope eff_scope with eff.
Notation "x <- m ;; k" := (bind m (fun x => k))
  (at level 20, m at level 99, k at level 200, only parsing) : eff_scope.
Notation "m ;; k" := (bind m (fun _ => k))
  (at level 100, k at level 200, only parsing, right associativity) : eff_scope.
Notation "'when' b 'then' m" := (if b then m else ret tt)
  (at level 99, b at level 9, m at level 99, only parsing) : eff_scope.
Open Scope eff_scope.

(** ** Transport and map primitives *)

(** [ws.send(data)].  The call is recorded; past the opening handshake the
    ws library does not throw from [send] without a callback, and a socket
    handed to the ['connection'] listener is past it. *)
Definition ws_send (ws : WebSocket) (data : string) : Eff unit :=
  modify (emit (WsSend ws data)).

(** [ws.close(code, reason)].  The call is recorded; an [OPEN] (or
    [CONNECTING]) socket starts its closing handshake, a socket already
    [CLOSING] or [CLOSED] is left as it is. *)
Definition closing (s : ReadyState) : ReadyState :=
  match s with
  | CONNECTING | OPEN => CLOSING
  | CLOSING => CLOSING
  | CLOSED => CLOSED
  end.

Definition mark_closing (ws : WebSocket) (st : RelayServer) : RelayServer :=
  match readyState st !! ws with
  | Some s => set_readyState <[ws := closing s]> st
  | None => st
  end.

Definition ws_close (ws : WebSocket) (code : Z) (reason : string) : Eff unit :=
  modify (fun st => emit (WsClose ws code reason) (mark_closing ws st)).

Definition pc_has (token : Token) : Eff bool :=
  gets (fun st => if pcConnections st !! token is Some _ then true else false).
Definition pc_get (token : Token) : Eff (option WebSocket) :=
  gets (fun st => pcConnections st !! token).
Definition pc_set (token : Token) (ws : WebSocket) : Eff unit :=
  modify (fun st => emit (MapSet PcConnections token ws)
                         (set_pcConnections <[token := ws]> st)).
Definition pc_delete (token : Token) : Eff unit :=
  modify (fun st => emit (MapDelete PcConnections token)
                         (set_pcConnections (delete token) st)).

Definition phone_has (token : Token) : Eff bool :=
  gets (fun st => if phoneConnections st !! token is Some _ then true else false).
Definition phone_get (token : Token) : Eff (option WebSocket) :=
  gets (fun st => phoneConnections st !! token).
Definition phone_set (token : Token) (ws : WebSocket) : Eff unit :=
  modify (fun st => emit (MapSet PhoneConnections token ws)
                         (set_phoneConnections <[token := ws]> st)).
Definition phone_delete (token : Token) : Eff unit :=
  modify (fun st => emit (MapDelete PhoneConnections token)
                         (set_phoneConnections (delete token) st)).

(** [x && x.readyState === WebSocket.OPEN] for [x] the result of a
    [Map.get] ([None] is [undefined]). *)
Definition live (st : RelayServer) (x : option WebSocket) : bool :=
  match x with
  | Some ws => if readyState st !! ws is Some OPEN then true else false
  | None => false
  end.

Definition is_open (x : option WebSocket) : Eff bool :=
  gets (fun st => live st x).

(** A method call on the result of a [Map.get]: on [undefined] it is a
    TypeError. *)
Definition send (x : option WebSocket) (data : string) : Eff unit :=
  match x with
  | Some ws => ws_send ws data
  | None => throw
  end.

Definition close (x : option WebSocket) (code : Z) (reason : string) : Eff unit :=
  match x with
  | Some ws => ws_close ws code reason
  | None => throw
  end.

(** The double quote character, for the one literal of the source that
    contains it. *)
Definition dquote : string := String "034"%char EmptyString.

(** ** A concrete runtime for examples

    [stringify] prints a value the way [JSON.stringify] does, for strings
    that need no escaping.  [parse] recognises the documents listed in
    [documents] (it is the inverse of [stringify] on them) and rejects
    every other text. *)

Fixpoint stringify (v : JSValue) : string :=
  match v with
  | JNull => "null"
  | JBool true => "true"
  | JBool false => "false"
  | JNumber lexeme => lexeme
  | JString s => dquote +:+ s +:+ dquote
  | JArray items => "[" +:+ String.concat "," (map stringify items) +:+ "]"
  | JObject fields =>
      "{" +:+ String.concat ","
                (map (fun kv => dquote +:+ fst kv +:+ dquote +:+ ":" +:+ stringify (snd kv))
                     fields)
          +:+ "}"
  end.

Definition click : JSValue :=
  JObject [("type", JString "click"); ("button", JString "left")].
Definition move : JSValue :=
  JObject [("type", JString "move"); ("dx", JNumber "3"); ("dy", JNumber "-4")].
Definition auth : JSValue :=
  JObject [("type", JString "auth"); ("token", JString "abc")].

Definition documents : list JSValue := [click; move; auth; JNull].

Definition parse (message : string) : option JSValue :=
  List.find (fun v => String.eqb (stringify v) message) documents.

(** ** The message history (convex/messages.ts)

    The [messages] table of the schema holds documents with the fields
    [text], [author] and [timestamp].  The table is a list of documents in
    insertion order, each with the id the database gave it; [db.insert]
    appends a document under a fresh id, and [query ... filter ... collect]
    returns the documents that pass the filter, in that order.  The caller's
    identity ([ctx.auth.getUserIdentity()], [None] for [null]) and the clock
    reading [Date.now()] are arguments. *)

Record UserIdentity := mkUserIdentity {
  email : option string;
  tokenIdentifier : string
}.

Record MessageDoc := mkMessageDoc {
  text : string;
  author : string;
  timestamp : Z
}.

Abbreviation Id := nat (only parsing).
Abbreviation Table := (list (nat * MessageDoc)) (only parsing).

(** [identity.email ?? identity.tokenIdentifier] *)
Definition author_of (identity : UserIdentity) : string :=
  match email identity with
  | Some e => e
  | None => tokenIdentifier identity
  end.

Definition getForCurrentUser (identity : option UserIdentity) (db : Table) : Table :=
  match identity with
  | None => []
  | Some identity =>
      filter (fun doc => author (snd doc) = author_of identity) db
  end.

(** The result of the mutation: the error thrown, or the new id and the
    table after the insert. *)
Definition createForCurrentUser (args_text : string) (identity : option UserIdentity)
    (now : Z) (db : Table) : string + (Id * Table) :=
  match identity with
  | None => inl "Not authenticated"
  | Some identity =>
      let messageId := length db in
      inr (messageId, db ++ [(messageId, mkMessageDoc args_text (author_of identity) now)])
  end.

(** A call of the mutation as the page makes it, and a table built by a
    sequence of such calls: a call that throws leaves the table as it
    was. *)
Definition submit (db : Table) (call : option UserIdentity * string * Z) : Table :=
  match createForCurrentUser (snd (fst call)) (fst (fst call)) (snd call) db with
  | inl _ => db
  | inr (_, db') => db'
  end.

Definition history (calls : list (option UserIdentity * string * Z)) : Table :=
  foldl submit [] calls.

(** The texts an author submitted in a sequence of calls, in order. *)
Definition texts_of (who : string) (calls : list (option UserIdentity * string * Z))
    : list string :=
  omap (fun call => match fst (fst call) with
                    | Some identity =>
                        if decide (author_of identity = who)
                        then Some (snd (fst call)) else None
                    | None => None
                    end) calls.

(** ** The handlers of [class RelayServer] *)

Section Relay.

(** [JSON.parse] and [JSON.stringify] are built-ins of the runtime.
    [JSON_parse s = None] stands for the SyntaxError thrown on input that is
    not JSON; the fields of a parsed object have distinct names. *)
Variable JSON_parse : string -> option JSValue.
Variable JSON_stringify : JSValue -> string.

Definition json_parse (message : string) : Eff JSValue :=
  match JSON_parse message with
  | Some data => ret data
  | None => throw
  end.

(** [data.type]: a TypeError on [null], the own property on an object,
    [undefined] on every other value. *)
Definition get_type (data : JSValue) : Eff (option JSValue) :=
  match data with
  | JNull => throw
  | JObject fields => ret (field "type" fields)
  | _ => ret None
  end.

(** The object literals the relay serialises. *)
Definition status_pc_connected (b : bool) : JSValue :=
  JObject [("type", JString "relay_status"); ("pc_connected", JBool b)].
Definition status_phone_connected (b : bool) : JSValue :=
  JObject [("type", JString "relay_status"); ("phone_connected", JBool b)].
Definition status_pc_registered : JSValue :=
  JObject [("type", JString "relay_status"); ("status", JString "connected");
           ("role", JString "pc")].
Definition status_phone_registered (pcConnected : bool) : JSValue :=
  JObject [("type", JString "relay_status"); ("pc_connected", JBool pcConnected);
           ("status", JString "connected"); ("role", JString "phone")].
Definition error_pc_not_connected : JSValue :=
  JObject [("type", JString "error"); ("error", JString "PC not connected");
           ("pc_connected", JBool false)].
Definition error_invalid_format : JSValue :=
  JObject [("type", JString "error"); ("error", JString "Invalid message format")].

Definition handlePCConnection (ws : WebSocket) (token : Token) : Eff unit :=
  has <- pc_has token ;;
  (when has then
     (oldPC <- pc_get token ;;
      close oldPC 1000 "New PC connection")) ;;
  pc_set token ws ;;
  phoneWS <- phone_get token ;;
  phoneOpen <- is_open phoneWS ;;
  (when phoneOpen then
     send phoneWS (JSON_stringify (status_pc_connected true))) ;;
  ws_send ws (JSON_stringify status_pc_registered).

Definition handlePhoneConnection (ws : WebSocket) (token : Token) : Eff unit :=
  has <- phone_has token ;;
  (when has then
     (oldPhone <- phone_get token ;;
      close oldPhone 1000 "New phone connection")) ;;
  phone_set token ws ;;
  pcWS <- pc_get token ;;
  pcConnected <- is_open pcWS ;;
  ws_send ws (JSON_stringify (status_phone_registered pcConnected)) ;;
  when pcConnected then
    send pcWS (JSON_stringify (status_phone_connected true)).

Definition handleAuthMessage (token : Token) (clientType : string) (data : JSValue)
    : Eff unit :=
  targetWS <- (if String.eqb clientType "phone" then pc_get token
               else phone_get token) ;;
  targetOpen <- is_open targetWS ;;
  when targetOpen then
    send targetWS (JSON_stringify data).

Definition handleMessage (ws : WebSocket) (token : Token) (clientType : string)
    (message : string) : Eff unit :=
  try_catch
    (data <- json_parse message ;;
     type <- get_type data ;;
     if is_auth type then
       handleAuthMessage token clientType data
     else if String.eqb clientType "phone" then
       (pcWS <- pc_get token ;;
        pcOpen <- is_open pcWS ;;
        if pcOpen then send pcWS message
        else ws_send ws (JSON_stringify error_pc_not_connected))
     else if String.eqb clientType "pc" then
       (phoneWS <- phone_get token ;;
        phoneOpen <- is_open phoneWS ;;
        when phoneOpen then send phoneWS message)
     else ret tt)
    (ws_send ws (JSON_stringify error_invalid_format)).

Definition handleDisconnection (token : Token) (clientType : string) : Eff unit :=
  if String.eqb clientType "pc" then
    (pc_delete token ;;
     phoneWS <- phone_get token ;;
     phoneOpen <- is_open phoneWS ;;
     when phoneOpen then
       send phoneWS (JSON_stringify (status_pc_connected false)))
  else
    (phone_delete token ;;
     pcWS <- pc_get token ;;
     pcOpen <- is_open pcWS ;;
     when pcOpen then
       send pcWS (JSON_stringify (status_phone_connected false))).

(** *** The ['connection'] listener of [setupWebSocketServer] *)

(** The branch on [clientType === 'pc'] that picks the registration. *)
Definition registerConnection (clientType : string) (ws : WebSocket) (token : Token)
    : Eff unit :=
  if String.eqb clientType "pc" then handlePCConnection ws token
  else handlePhoneConnection ws token.

(** [!!q] *)
Definition truthy (q : QueryValue) : bool :=
  match q with
  | QUndefined => false
  | QString EmptyString => false
  | QString _ => true
  | QArray _ _ => true
  end.

(** [['pc', 'phone'].includes(q)] *)
Definition includes_pc_phone (q : QueryValue) : bool :=
  match q with
  | QString s => String.eqb s "pc" || String.eqb s "phone"
  | _ => false
  end.

Definition client_type_reason : string :=
  "Client type must be " +:+ dquote +:+ "pc" +:+ dquote +:+ " or "
    +:+ dquote +:+ "phone" +:+ dquote.

Definition onConnection (ws : WebSocket) (token clientType : QueryValue) : Eff unit :=
  if negb (truthy token) then
    ws_close ws 1008 "Token required"
  else if negb (truthy clientType) || negb (includes_pc_phone clientType) then
    ws_close ws 1008 client_type_reason
  else
    match token, clientType with
    | QUndefined, _ => throw
    | _, (QUndefined | QArray _ _) => throw
    | QString s, QString c =>
        registerConnection c ws (inl s) ;;
        modify (set_listeners <[ws := (inl s, c)]>)
    | QArray r _, QString c =>
        registerConnection c ws (inr r) ;;
        modify (set_listeners <[ws := (inr r, c)]>)
    end.

(** ** Events *)

Inductive Event :=
| Connection (ws : WebSocket) (token clientType : QueryValue)
| Message (ws : WebSocket) (data : string)
| Close (ws : WebSocket)
| Error (ws : WebSocket)
| Closing (ws : WebSocket).

(** One turn of the event loop.  [None]: the event cannot occur in this
    state (a ['connection'] for a socket already handed out, or an event on
    a socket that has no listeners).

    - ['connection'] delivers a fresh socket that is [OPEN];
    - ['close'] is emitted once the socket is [CLOSED];
    - ['error'] is emitted with the socket no longer [OPEN];
    - [Closing] is the transport leaving [OPEN] (the remote end starts the
      closing handshake, or the link drops) before any listener runs. *)
Definition dispatch (ev : Event) (st : RelayServer) : option RelayServer :=
  match ev with
  | Connection ws token clientType =>
      match readyState st !! ws with
      | Some _ => None
      | None => Some (exec (onConnection ws token clientType)
                           (set_readyState <[ws := OPEN]> st))
      end
  | Message ws data =>
      '(token, clientType) ← listeners st !! ws;
      Some (exec (handleMessage ws token clientType data) st)
  | Close ws =>
      '(token, clientType) ← listeners st !! ws;
      Some (exec (handleDisconnection token clientType)
                 (set_readyState <[ws := CLOSED]> st))
  | Error ws =>
      '(token, clientType) ← listeners st !! ws;
      Some (exec (handleDisconnection token clientType) (mark_closing ws st))
  | Closing ws =>
      _ ← readyState st !! ws;
      Some (mark_closing ws st)
  end.

Fixpoint run (evs : list Event) (st : RelayServer) : option RelayServer :=
  match evs with
  | [] => Some st
  | ev :: evs => st' ← dispatch ev st; run evs st'
  end.

Definition reachable (st : RelayServer) : Prop :=
  ∃ evs, run evs new_RelayServer = Some st.

(** ** Direct-style reading of the handlers *)

(** Closing the previous occupant of a slot, if there is one. *)
Definition supersede (x : option WebSocket) (reason : string) (st : RelayServer)
    : RelayServer :=
  match x with
  | Some old => emit (WsClose old 1000 reason) (mark_closing old st)
  | None => st
  end.

(** A send guarded by [x && x.readyState === WebSocket.OPEN]. *)
Definition notify (x : option WebSocket) (data : string) (st : RelayServer)
    : RelayServer :=
  match x with
  | Some ws => if live st x then emit (WsSend ws data) st else st
  | None => st
  end.

(** The value of [data.type] when the read does not throw. *)
Definition type_of (data : JSValue) : option JSValue :=
  match data with
  | JObject fields => field "type" fields
  | _ => None
  end.

(** ** Notions used by the statements *)

(** The map a client type registers in, and its name in the trace. *)
Definition connections (clientType : string) (st : RelayServer)
    : gmap Token WebSocket :=
  if String.eqb clientType "pc" then pcConnections st else phoneConnections st.

Definition map_of (clientType : string) : MapName :=
  if String.eqb clientType "pc" then PcConnections else PhoneConnections.

(** The reason string a superseded connection is closed with. *)
Definition supersede_reason (clientType : string) : string :=
  if String.eqb clientType "pc" then "New PC connection" else "New phone connection".

(** The slot a message of [clientType] is relayed to. *)
Definition peer_slot (clientType : string) (token : Token) (st : RelayServer)
    : option WebSocket :=
  if String.eqb clientType "phone" then pcConnections st !! token
  else phoneConnections st !! token.

(** A message that parses to a value other than [null] whose [type] is not
    ['auth']. *)
Definition relayable (message : string) : Prop :=
  ∃ data, JSON_parse message = Some data ∧ data ≠ JNull ∧ is_auth (type_of data) = false.

(** Messages of one sender handled one after the other. *)
Definition handleMessages (ws : WebSocket) (token : Token) (clientType : string)
    (messages : list string) (st : RelayServer) : RelayServer :=
  foldl (fun st message => exec (handleMessage ws token clientType message) st)
        st messages.

Definition is_send (e : Effect) : Prop :=
  match e with
  | WsSend _ _ => True
  | _ => False
  end.

(** The [close] calls of a trace, in order. *)
Definition closes_of (tr : list Effect) : list (WebSocket * Z * string) :=
  omap (fun e => match e with
                 | WsClose ws code reason => Some (ws, code, reason)
                 | _ => None
                 end) tr.

(** The data sent to [ws] in a trace, in order. *)
Definition sent_to (ws : WebSocket) (tr : list Effect) : list string :=
  omap (fun e => match e with
                 | WsSend w data => if decide (w = ws) then Some data else None
                 | _ => None
                 end) tr.

Definition registered_under (token : Token) (st : RelayServer) (ws : WebSocket) : Prop :=
  pcConnections st !! token = Some ws ∨ phoneConnections st !! token = Some ws.

(** An effect that stays within one token: a call on a socket of [S], or a
    write at [token]. *)
Definition local_effect (S : WebSocket -> Prop) (token : Token) (e : Effect) : Prop :=
  match e with
  | WsSend ws _ | WsClose ws _ _ => S ws
  | MapSet _ t _ | MapDelete _ t => t = token
  end.

(** The new part of the trace of a handler run under [token] for the
    socket [ws]: calls on [ws] or on the sockets registered under [token],
    and writes at [token]. *)
Definition within (token : Token) (ws : WebSocket) (st st' : RelayServer) : Prop :=
  ∃ new, trace st' = trace st ++ new
         ∧ Forall (local_effect (fun w => w = ws ∨ registered_under token st w) token) new.

(** A handshake the listener turns away: [token] missing or empty,
    [client] absent or neither ["pc"] nor ["phone"]. *)
Definition malformed_handshake (token clientType : QueryValue) : Prop :=
  token = QUndefined ∨ token = QString EmptyString
  ∨ clientType = QUndefined
  ∨ (clientType ≠ QString "pc" ∧ clientType ≠ QString "phone").

(** The token an event is performed under. *)
Definition event_token (ev : Event) (st : RelayServer) : option Token :=
  match ev with
  | Connection _ (QString s) _ => if truthy (QString s) then Some (inl s) else None
  | Connection _ (QArray r _) _ => Some (inr r)
  | Connection _ QUndefined _ => None
  | Message ws _ | Close ws | Error ws => fst <$> listeners st !! ws
  | Closing _ => None
  end.

(** The socket an event is about. *)
Definition event_socket (ev : Event) : WebSocket :=
  match ev with
  | Connection ws _ _ | Message ws _ | Close ws | Error ws | Closing ws => ws
  end.

(** Every registered socket registered under the token and client type its
    listeners captured, and every socket with listeners is known. *)
Definition consistent (st : RelayServer) : Prop :=
  (∀ t ws, pcConnections st !! t = Some ws → listeners st !! ws = Some (t, "pc"))
  ∧ (∀ t ws, phoneConnections st !! t = Some ws → listeners st !! ws = Some (t, "phone"))
  ∧ (∀ ws, is_Some (listeners st !! ws) → is_Some (readyState st !! ws)).

(** The status a peer is sent when a connection of [clientType] goes
    away. *)
Definition offline_status (clientType : string) : JSValue :=
  if String.eqb clientType "pc" then status_pc_connected false
  else status_phone_connected false.

(** The status a peer is sent when a connection of [clientType]
    registers. *)
Definition online_status (clientType : string) : JSValue :=
  if String.eqb clientType "pc" then status_pc_connected true
  else status_phone_connected true.

(** The confirmation a connection of [clientType] is sent when it
    registers; [peerLive] is the liveness of its peer at that time. *)
Definition registered_status (clientType : string) (peerLive : bool) : JSValue :=
  if String.eqb clientType "pc" then status_pc_registered
  else status_phone_registered peerLive.

(** A send that goes to [ws] itself or to a socket that is [OPEN] in
    [st]. *)
Definition guarded (st : RelayServer) (ws : WebSocket) (e : Effect) : Prop :=
  match e with
  | WsSend w _ => w = ws ∨ readyState st !! w = Some OPEN
  | _ => True
  end.

(** A run from [st] to [st1] on behalf of the socket [ws] in which every
    send is guarded, and which opens no socket. *)
Definition sends_guarded (st : RelayServer) (ws : WebSocket) (st1 : RelayServer) : Prop :=
  (∃ new, trace st1 = trace st ++ new ∧ Forall (guarded st ws) new)
  ∧ ∀ w, readyState st1 !! w = Some OPEN → w = ws ∨ readyState st !! w = Some OPEN.

(** ** The handlers in direct style *)

Ltac unfold_eff :=
  unfold exec, registerConnection, handlePCConnection, handlePhoneConnection,
    handleMessage, handleAuthMessage, handleDisconnection,
    json_parse, get_type, try_catch, send, close, is_open,
    pc_has, pc_get, pc_set, pc_delete, phone_has, phone_get, phone_set, phone_delete,
    ws_send, ws_close, bind, ret, throw, modify, gets in *.

Ltac case_on t :=
  let E := fresh "E" in
  destruct t eqn:E; simpl in *; rewrite ?E in *; simpl in *; simplify_eq.

Ltac eff_cases :=
  repeat match goal with
         | |- context [match ?m !! ?k with _ => _ end] => case_on (m !! k)
         | |- context [if String.eqb ?a ?b then _ else _] => case_on (String.eqb a b)
         | |- context [match JSON_parse ?m with _ => _ end] => case_on (JSON_parse m)
         | |- context [if is_auth ?t then _ else _] => case_on (is_auth t)
         | |- context [match ?x with _ => _ end] => is_var x; case_on x
         end.

Ltac eff_solve :=
  unfold_eff; unfold notify, supersede, mark_closing, type_of; simpl; eff_cases;
  try congruence.

Lemma handlePCConnection_exec st ws token :
  exec (handlePCConnection ws token) st =
  emit (WsSend ws (JSON_stringify status_pc_registered))
    (notify (phoneConnections st !! token) (JSON_stringify (status_pc_connected true))
      (emit (MapSet PcConnections token ws)
        (set_pcConnections <[token := ws]>
          (supersede (pcConnections st !! token) "New PC connection" st)))).
Proof. eff_solve. Qed.

Lemma handlePhoneConnection_exec st ws token :
  exec (handlePhoneConnection ws token) st =
  let st1 := emit (MapSet PhoneConnections token ws)
               (set_phoneConnections <[token := ws]>
                 (supersede (phoneConnections st !! token) "New phone connection" st)) in
  let pcWS := pcConnections st !! token in
  notify pcWS (JSON_stringify (status_phone_connected true))
    (emit (WsSend ws (JSON_stringify (status_phone_registered (live st1 pcWS)))) st1).
Proof. eff_solve. Qed.

Lemma handleDisconnection_exec st token clientType :
  exec (handleDisconnection token clientType) st =
  if String.eqb clientType "pc" then
    notify (phoneConnections st !! token) (JSON_stringify (status_pc_connected false))
      (emit (MapDelete PcConnections token) (set_pcConnections (delete token) st))
  else
    notify (pcConnections st !! token) (JSON_stringify (status_phone_connected false))
      (emit (MapDelete PhoneConnections token) (set_phoneConnections (delete token) st)).
Proof. eff_solve. Qed.

Lemma handleAuthMessage_exec st token clientType data :
  exec (handleAuthMessage token clientType data) st =
  notify (peer_slot clientType token st) (JSON_stringify data) st.
Proof. unfold peer_slot. eff_solve. Qed.

(** What [handleMessage] does, by the outcome of [JSON.parse] and of the
    read of [data.type]. *)
Lemma handleMessage_exec st ws token clientType message :
  exec (handleMessage ws token clientType message) st =
  match JSON_parse message with
  | None | Some JNull =>
      emit (WsSend ws (JSON_stringify error_invalid_format)) st
  | Some data =>
      if is_auth (type_of data) then
        notify (peer_slot clientType token st) (JSON_stringify data) st
      else if String.eqb clientType "phone" then
        if live st (pcConnections st !! token) then
          notify (pcConnections st !! token) message st
        else emit (WsSend ws (JSON_stringify error_pc_not_connected)) st
      else if String.eqb clientType "pc" then
        notify (phoneConnections st !! token) message st
      else st
  end.
Proof. unfold peer_slot. eff_solve. Qed.

Lemma registerConnection_exec st clientType ws token :
  exec (registerConnection clientType ws token) st =
  if String.eqb clientType "pc" then exec (handlePCConnection ws token) st
  else exec (handlePhoneConnection ws token) st.
Proof. unfold registerConnection. by destruct (String.eqb clientType "pc"). Qed.

(** Registration never throws, so the listeners are always installed
    after it. *)
Lemma registerConnection_normal st clientType ws token :
  registerConnection clientType ws token st
  = (Normal tt, exec (registerConnection clientType ws token) st).
Proof. eff_solve. Qed.

Lemma includes_pc_phone_true q :
  includes_pc_phone q = true ↔ q = QString "pc" ∨ q = QString "phone".
Proof.
  destruct q as [|s|]; simpl.
  - split; [done | intros [?|?]; done].
  - rewrite orb_true_iff, !String.eqb_eq.
    split; (intros [?|?]; [left | right]; congruence).
  - split; [done | intros [?|?]; done].
Qed.

Lemma mark_closing_maps ws st :
  pcConnections (mark_closing ws st) = pcConnections st
  ∧ phoneConnections (mark_closing ws st) = phoneConnections st
  ∧ listeners (mark_closing ws st) = listeners st
  ∧ trace (mark_closing ws st) = trace st.
Proof. unfold mark_closing. by destruct (readyState st !! ws). Qed.

Lemma onConnection_rejected st ws token clientType :
  malformed_handshake token clientType →
  ∃ reason,
    exec (onConnection ws token clientType) st
    = emit (WsClose ws 1008 reason) (mark_closing ws st).
Proof.
  intros Hbad. unfold onConnection.
  destruct (truthy token) eqn:Ht; simpl.
  - destruct (truthy clientType) eqn:Hc; simpl; [|by eexists].
    destruct (includes_pc_phone clientType) eqn:Hi; simpl; [|by eexists].
    apply includes_pc_phone_true in Hi.
    destruct Hbad as [->|[->|[->|[? ?]]]]; try done. by destruct Hi.
  - by eexists.
Qed.

Lemma onConnection_accepted st ws token clientType :
  truthy token = true → includes_pc_phone clientType = true →
  ∃ t c, clientType = QString c ∧ event_token (Connection ws token clientType) st = Some t
    ∧ (c = "pc" ∨ c = "phone")
    ∧ exec (onConnection ws token clientType) st
      = set_listeners <[ws := (t, c)]> (exec (registerConnection c ws t) st).
Proof.
  intros Ht Hi. unfold onConnection. rewrite Ht.
  pose proof Hi as Hi'. apply includes_pc_phone_true in Hi' as [->| ->]; simpl.
  - destruct token as [|s|r items]; [done| |].
    + exists (inl s), "pc". simpl in *. rewrite Ht.
      unfold exec at 1, bind. rewrite registerConnection_normal. auto.
    + exists (inr r), "pc". simpl.
      unfold exec at 1, bind. rewrite registerConnection_normal. auto.
  - destruct token as [|s|r items]; [done| |].
    + exists (inl s), "phone". simpl in *. rewrite Ht.
      unfold exec at 1, bind. rewrite registerConnection_normal. auto.
    + exists (inr r), "phone". simpl.
      unfold exec at 1, bind. rewrite registerConnection_normal. auto.
Qed.

(** C8.  A connection whose [token] is missing or empty, or whose [client]
    is absent or neither ["pc"] nor ["phone"], is turned away: the relay
    makes exactly one call, a [close] of the new socket with code 1008
    (policy violation); it sends nothing, writes to neither map and
    installs no listener. *)
Theorem malformed_handshake_closed st ws token clientType :
  malformed_handshake token clientType →
  let st' := exec (onConnection ws token clientType) st in
  (∃ reason, trace st' = trace st ++ [WsClose ws 1008 reason])
  ∧ pcConnections st' = pcConnections st
  ∧ phoneConnections st' = phoneConnections st
  ∧ listeners st' = listeners st.
Proof.
  intros Hbad. destruct (onConnection_rejected st ws _ _ Hbad) as [reason ->].
  destruct (mark_closing_maps ws st) as (Hpc & Hphone & Hl & Htr). simpl.
  rewrite Hpc, Hphone, Hl, Htr. eauto.
Qed.

(** ** Supersession *)

Lemma notify_cases x data st :
  notify x data st = st
  ∨ ∃ ws, x = Some ws ∧ readyState st !! ws = Some OPEN
          ∧ notify x data st = emit (WsSend ws data) st.
Proof.
  destruct x as [ws|]; simpl; [|by left].
  destruct (readyState st !! ws) as [[]|] eqn:E; eauto.
Qed.

Lemma mark_closing_not_open ws st :
  readyState (mark_closing ws st) !! ws ≠ Some OPEN.
Proof.
  unfold mark_closing. destruct (readyState st !! ws) as [s|] eqn:E; simpl.
  - rewrite lookup_insert_eq. by destruct s.
  - by rewrite E.
Qed.

Lemma handlePCConnection_occupied st ws token old :
  pcConnections st !! token = Some old →
  let st' := exec (handlePCConnection ws token) st in
  (∃ rest, trace st' = trace st ++ WsClose old 1000 "New PC connection"
                          :: MapSet PcConnections token ws :: rest
           ∧ Forall is_send rest)
  ∧ pcConnections st' !! token = Some ws
  ∧ readyState st' !! old ≠ Some OPEN.
Proof.
  intros Hold. rewrite handlePCConnection_exec, Hold. simpl.
  pose proof (mark_closing_not_open old st) as Hno.
  destruct (mark_closing_maps old st) as (_ & _ & _ & Htr).
  match goal with |- context [notify ?x ?d ?s] =>
    destruct (notify_cases x d s) as [->|(p & _ & _ & ->)] end; simpl;
    rewrite Htr, <- !app_assoc, lookup_insert_eq; simpl;
    (split; [eexists; split; [reflexivity|repeat constructor]|done]).
Qed.

Lemma handlePhoneConnection_occupied st ws token old :
  phoneConnections st !! token = Some old →
  let st' := exec (handlePhoneConnection ws token) st in
  (∃ rest, trace st' = trace st ++ WsClose old 1000 "New phone connection"
                          :: MapSet PhoneConnections token ws :: rest
           ∧ Forall is_send rest)
  ∧ phoneConnections st' !! token = Some ws
  ∧ readyState st' !! old ≠ Some OPEN.
Proof.
  intros Hold. rewrite handlePhoneConnection_exec, Hold. simpl.
  pose proof (mark_closing_not_open old st) as Hno.
  destruct (mark_closing_maps old st) as (_ & _ & _ & Htr).
  match goal with |- context [notify ?x ?d ?s] =>
    destruct (notify_cases x d s) as [->|(p & _ & _ & ->)] end; simpl;
    rewrite Htr, <- !app_assoc, lookup_insert_eq; simpl;
    (split; [eexists; split; [reflexivity|repeat constructor]|done]).
Qed.

(** C6.  A slot is one entry of a map, so it never holds two connections.
    When a connection registers into an occupied slot, the first thing the
    relay does is close the occupant, the next is the write that stores the
    newcomer, and everything after is a send; afterwards the slot holds the
    newcomer and the previous occupant is no longer open. *)
Theorem supersede_closes_before_store st clientType ws token old :
  connections clientType st !! token = Some old →
  let st' := exec (registerConnection clientType ws token) st in
  (∃ reason rest,
      trace st' = trace st ++ WsClose old 1000 reason
                    :: MapSet (map_of clientType) token ws :: rest
      ∧ Forall is_send rest)
  ∧ connections clientType st' !! token = Some ws
  ∧ readyState st' !! old ≠ Some OPEN.
Proof.
  unfold connections, map_of. rewrite registerConnection_exec.
  destruct (String.eqb clientType "pc"); intros Hold.
  - destruct (handlePCConnection_occupied st ws token old Hold)
      as ((rest & Htr & Hrest) & Hslot & Hclosed). eauto 6.
  - destruct (handlePhoneConnection_occupied st ws token old Hold)
      as ((rest & Htr & Hrest) & Hslot & Hclosed). eauto 6.
Qed.

Lemma closes_of_app tr1 tr2 : closes_of (tr1 ++ tr2) = closes_of tr1 ++ closes_of tr2.
Proof. apply omap_app. Qed.

Lemma closes_of_sends tr : Forall is_send tr → closes_of tr = [].
Proof. induction 1 as [|[] tr He _ IH]; simpl in *; done. Qed.

(** C7 (as the code has it).  The connection displaced by a registration is
    closed exactly once, with code 1000 (normal closure) and the reason
    ["New PC connection"] in the PC map, ["New phone connection"] in the
    phone map. *)
Theorem superseded_close_code_and_reason st clientType ws token old :
  connections clientType st !! token = Some old →
  closes_of (trace (exec (registerConnection clientType ws token) st))
  = closes_of (trace st) ++ [(old, 1000, supersede_reason clientType)].
Proof.
  unfold connections, supersede_reason. rewrite registerConnection_exec.
  destruct (String.eqb clientType "pc"); intros Hold.
  - destruct (handlePCConnection_occupied st ws token old Hold)
      as ((rest & -> & Hrest) & _).
    rewrite closes_of_app. simpl. by rewrite (closes_of_sends rest).
  - destruct (handlePhoneConnection_occupied st ws token old Hold)
      as ((rest & -> & Hrest) & _).
    rewrite closes_of_app. simpl. by rewrite (closes_of_sends rest).
Qed.

(** ** Routing *)

Lemma relayable_exec st ws token clientType message :
  relayable message →
  exec (handleMessage ws token clientType message) st
  = if String.eqb clientType "phone" then
      if live st (pcConnections st !! token) then
        notify (pcConnections st !! token) message st
      else emit (WsSend ws (JSON_stringify error_pc_not_connected)) st
    else if String.eqb clientType "pc" then
      notify (phoneConnections st !! token) message st
    else st.
Proof.
  intros (data & Hparse & Hnull & Hauth).
  rewrite handleMessage_exec, Hparse, Hauth. by destruct data.
Qed.

Lemma notify_live st x data peer :
  x = Some peer → readyState st !! peer = Some OPEN →
  notify x data st = emit (WsSend peer data) st.
Proof. intros -> H. unfold notify, live. by rewrite H. Qed.

Lemma notify_not_live st x data :
  live st x = false → notify x data st = st.
Proof. destruct x; simpl; [|done]. by intros ->. Qed.

Lemma live_Some st peer :
  readyState st !! peer = Some OPEN → live st (Some peer) = true.
Proof. simpl. by intros ->. Qed.

(** One relayable message, its peer registered and open: the only thing
    the relay does is send the message text to the peer. *)
Lemma relayable_forwarded st ws token clientType message peer :
  clientType = "pc" ∨ clientType = "phone" →
  relayable message →
  peer_slot clientType token st = Some peer →
  readyState st !! peer = Some OPEN →
  exec (handleMessage ws token clientType message) st
  = emit (WsSend peer message) st.
Proof.
  intros Hct Hmsg Hpeer Hopen. rewrite relayable_exec by done.
  unfold peer_slot in Hpeer.
  destruct Hct as [-> | ->]; simpl in *; rewrite Hpeer.
  - by apply notify_live.
  - rewrite (live_Some _ _ Hopen). by apply notify_live.
Qed.

(** C5.  While the peer of a sender is registered and open, the relayable
    messages of that sender are passed to the peer as they are, one send
    per message, in the order sent, and the relay does nothing else. *)
Theorem relay_forwards_verbatim_in_order st ws token clientType peer messages :
  clientType = "pc" ∨ clientType = "phone" →
  peer_slot clientType token st = Some peer →
  readyState st !! peer = Some OPEN →
  Forall relayable messages →
  let st' := handleMessages ws token clientType messages st in
  trace st' = trace st ++ map (WsSend peer) messages
  ∧ pcConnections st' = pcConnections st
  ∧ phoneConnections st' = phoneConnections st
  ∧ readyState st' = readyState st.
Proof.
  intros Hct Hpeer Hopen Hall. unfold handleMessages. revert st Hpeer Hopen.
  induction Hall as [|message messages Hmsg _ IH]; intros st Hpeer Hopen; simpl.
  - by rewrite app_nil_r.
  - rewrite (relayable_forwarded st ws token clientType message peer) by done.
    destruct (IH (emit (WsSend peer message) st)) as (Htr & Hpc & Hphone & Hrs);
      [done|done|].
    rewrite Htr, Hpc, Hphone, Hrs. simpl. by rewrite <- app_assoc.
Qed.

(** An ['auth'] envelope takes the [handleAuthMessage] path. *)
Lemma auth_exec st ws token clientType message data :
  JSON_parse message = Some data → is_auth (type_of data) = true →
  exec (handleMessage ws token clientType message) st
  = notify (peer_slot clientType token st) (JSON_stringify data) st.
Proof.
  intros Hparse Hauth. rewrite handleMessage_exec, Hparse, Hauth.
  by destruct data.
Qed.

(** C4 (as the code has it).  An ['auth'] envelope is passed on, as the
    serialisation of the parsed envelope, exactly when the peer slot holds a
    connection that is open; when the slot is empty or its connection is
    not open the relay does nothing at all. *)
Theorem auth_forwarded_only_to_live_peer st ws token clientType message data :
  JSON_parse message = Some data → is_auth (type_of data) = true →
  let st' := exec (handleMessage ws token clientType message) st in
  (∀ peer, peer_slot clientType token st = Some peer →
           readyState st !! peer = Some OPEN →
           st' = emit (WsSend peer (JSON_stringify data)) st)
  ∧ (live st (peer_slot clientType token st) = false → st' = st).
Proof.
  intros Hparse Hauth. simpl. rewrite (auth_exec _ _ _ _ _ _ Hparse Hauth). split.
  - intros peer Hpeer Hopen. by apply notify_live.
  - apply notify_not_live.
Qed.

(** A relayable message of the phone whose PC is not registered or not
    open: the phone is sent the ["PC not connected"] error, once, and
    nothing else happens. *)
Lemma phone_sender_peer_unavailable st ws token message :
  relayable message → live st (pcConnections st !! token) = false →
  exec (handleMessage ws token "phone" message) st
  = emit (WsSend ws (JSON_stringify error_pc_not_connected)) st.
Proof. intros Hmsg Hdead. rewrite relayable_exec by done. simpl. by rewrite Hdead. Qed.

(** The same for the PC: the message is dropped and the PC is sent
    nothing. *)
Lemma pc_sender_peer_unavailable st ws token message :
  relayable message → live st (phoneConnections st !! token) = false →
  exec (handleMessage ws token "pc" message) st = st.
Proof. intros Hmsg Hdead. rewrite relayable_exec by done. simpl. by apply notify_not_live. Qed.

(** ** Frames of the handlers *)

Lemma notify_frame x data st :
  pcConnections (notify x data st) = pcConnections st
  ∧ phoneConnections (notify x data st) = phoneConnections st
  ∧ readyState (notify x data st) = readyState st
  ∧ listeners (notify x data st) = listeners st.
Proof. by destruct (notify_cases x data st) as [->|(? & _ & _ & ->)]. Qed.

Lemma supersede_frame x reason st :
  pcConnections (supersede x reason st) = pcConnections st
  ∧ phoneConnections (supersede x reason st) = phoneConnections st
  ∧ listeners (supersede x reason st) = listeners st.
Proof.
  destruct x as [old|]; simpl; [|done].
  by destruct (mark_closing_maps old st) as (-> & -> & -> & _).
Qed.

Ltac frame_rewrite :=
  repeat match goal with
         | |- context [notify ?x ?d ?s] =>
             let H1 := fresh in let H2 := fresh in let H3 := fresh in let H4 := fresh in
             destruct (notify_frame x d s) as (H1 & H2 & H3 & H4);
             rewrite ?H1, ?H2, ?H3, ?H4; clear H1 H2 H3 H4; simpl
         | |- context [supersede ?x ?r ?s] =>
             let H1 := fresh in let H2 := fresh in let H3 := fresh in
             destruct (supersede_frame x r s) as (H1 & H2 & H3);
             rewrite ?H1, ?H2, ?H3; clear H1 H2 H3; simpl
         end.

Lemma handlePCConnection_maps st ws token :
  pcConnections (exec (handlePCConnection ws token) st) = <[token := ws]> (pcConnections st)
  ∧ phoneConnections (exec (handlePCConnection ws token) st) = phoneConnections st
  ∧ listeners (exec (handlePCConnection ws token) st) = listeners st.
Proof. rewrite handlePCConnection_exec. simpl. by frame_rewrite. Qed.

Lemma handlePhoneConnection_maps st ws token :
  phoneConnections (exec (handlePhoneConnection ws token) st)
    = <[token := ws]> (phoneConnections st)
  ∧ pcConnections (exec (handlePhoneConnection ws token) st) = pcConnections st
  ∧ listeners (exec (handlePhoneConnection ws token) st) = listeners st.
Proof. rewrite handlePhoneConnection_exec. simpl. by frame_rewrite. Qed.

Lemma handleMessage_maps st ws token clientType message :
  pcConnections (exec (handleMessage ws token clientType message) st) = pcConnections st
  ∧ phoneConnections (exec (handleMessage ws token clientType message) st)
    = phoneConnections st
  ∧ readyState (exec (handleMessage ws token clientType message) st) = readyState st
  ∧ listeners (exec (handleMessage ws token clientType message) st) = listeners st.
Proof.
  rewrite handleMessage_exec.
  destruct (JSON_parse message) as [data|]; [|done].
  destruct data; simpl; try done;
    repeat match goal with |- context [if ?b then _ else _] => destruct b end;
    simpl; by frame_rewrite.
Qed.

Lemma handleDisconnection_maps st token clientType :
  let st' := exec (handleDisconnection token clientType) st in
  pcConnections st'
    = (if String.eqb clientType "pc" then delete token (pcConnections st)
       else pcConnections st)
  ∧ phoneConnections st'
    = (if String.eqb clientType "pc" then phoneConnections st
       else delete token (phoneConnections st))
  ∧ readyState st' = readyState st
  ∧ listeners st' = listeners st.
Proof.
  simpl. rewrite handleDisconnection_exec.
  destruct (String.eqb clientType "pc"); simpl; by frame_rewrite.
Qed.


(** ** Effects stay within the token *)

Lemma within_refl token ws st : within token ws st st.
Proof. exists []. by rewrite app_nil_r. Qed.

Lemma within_emit token ws st e :
  local_effect (fun w => w = ws ∨ registered_under token st w) token e →
  within token ws st (emit e st).
Proof. intros He. exists [e]. split; [done | by constructor]. Qed.

(** Extending a run by one more local effect. *)
Lemma within_step token ws st st1 e :
  within token ws st st1 →
  local_effect (fun w => w = ws ∨ registered_under token st w) token e →
  within token ws st (emit e st1).
Proof.
  intros (new & Htr & Hnew) He. exists (new ++ [e]). simpl.
  rewrite Htr, <- app_assoc. split; [done|].
  apply Forall_app. split; [done | by constructor].
Qed.

Lemma within_trace token ws st st1 st2 :
  within token ws st st1 → trace st2 = trace st1 → within token ws st st2.
Proof. intros (new & Htr & Hnew) Heq. exists new. by rewrite Heq. Qed.

Lemma within_notify token ws st st1 x data :
  within token ws st st1 →
  (∀ w, x = Some w → w = ws ∨ registered_under token st w) →
  within token ws st (notify x data st1).
Proof.
  intros Hw Hx. destruct (notify_cases x data st1) as [->|(w & -> & _ & ->)]; [done|].
  apply within_step; [done|]. simpl. by apply Hx.
Qed.

Lemma within_supersede token ws st st1 x reason :
  within token ws st st1 →
  (∀ w, x = Some w → w = ws ∨ registered_under token st w) →
  within token ws st (supersede x reason st1).
Proof.
  intros Hw Hx. destruct x as [old|]; simpl; [|done].
  apply within_step; [|simpl; by apply Hx].
  apply (within_trace _ _ _ st1); [done|].
  by destruct (mark_closing_maps old st1) as (_ & _ & _ & ->).
Qed.

Lemma registered_pc token st w :
  pcConnections st !! token = Some w → registered_under token st w.
Proof. by left. Qed.

Lemma registered_phone token st w :
  phoneConnections st !! token = Some w → registered_under token st w.
Proof. by right. Qed.

Ltac within_solve :=
  repeat first
    [ apply within_notify; [|intros ? ?; right; by eauto using registered_pc, registered_phone]
    | apply within_step; [|simpl; by eauto]
    | apply within_supersede; [|intros ? ?; right; by eauto using registered_pc, registered_phone]
    | apply within_refl ].

Lemma handlePCConnection_within st ws token :
  within token ws st (exec (handlePCConnection ws token) st).
Proof. rewrite handlePCConnection_exec. within_solve. Qed.

Lemma handlePhoneConnection_within st ws token :
  within token ws st (exec (handlePhoneConnection ws token) st).
Proof.
  rewrite handlePhoneConnection_exec. simpl.
  apply within_notify; [|intros ? ?; right; by eauto using registered_pc].
  apply within_step; [|simpl; by eauto].
  apply (within_trace _ _ _
           (emit (MapSet PhoneConnections token ws)
              (supersede (phoneConnections st !! token) "New phone connection" st)));
    [|done].
  within_solve.
Qed.

Lemma handleDisconnection_within st ws token clientType :
  within token ws st (exec (handleDisconnection token clientType) st).
Proof.
  rewrite handleDisconnection_exec.
  destruct (String.eqb clientType "pc").
  - apply within_notify; [|intros ? ?; right; by eauto using registered_phone].
    apply (within_trace _ _ _ (emit (MapDelete PcConnections token) st)); [|done].
    within_solve.
  - apply within_notify; [|intros ? ?; right; by eauto using registered_pc].
    apply (within_trace _ _ _ (emit (MapDelete PhoneConnections token) st)); [|done].
    within_solve.
Qed.

Lemma handleMessage_within st ws token clientType message :
  within token ws st (exec (handleMessage ws token clientType message) st).
Proof.
  rewrite handleMessage_exec. unfold peer_slot.
  destruct (JSON_parse message) as [data|]; [|within_solve].
  destruct data; simpl;
    repeat match goal with |- context [if ?b then _ else _] => destruct b end;
    within_solve.
Qed.

(** ** The invariant of the event loop *)

Lemma mark_closing_known ws st w :
  is_Some (readyState st !! w) → is_Some (readyState (mark_closing ws st) !! w).
Proof.
  unfold mark_closing. destruct (readyState st !! ws) eqn:E; simpl; [|done].
  destruct (decide (ws = w)) as [->|Hne].
  - by rewrite lookup_insert_eq.
  - by rewrite lookup_insert_ne.
Qed.

Lemma supersede_known x reason st w :
  is_Some (readyState st !! w) → is_Some (readyState (supersede x reason st) !! w).
Proof. destruct x; simpl; [apply mark_closing_known | done]. Qed.

Lemma registerConnection_frame st clientType ws token :
  let st' := exec (registerConnection clientType ws token) st in
  pcConnections st'
    = (if String.eqb clientType "pc" then <[token := ws]> (pcConnections st)
       else pcConnections st)
  ∧ phoneConnections st'
    = (if String.eqb clientType "pc" then phoneConnections st
       else <[token := ws]> (phoneConnections st))
  ∧ listeners st' = listeners st
  ∧ (∀ w, is_Some (readyState st !! w) → is_Some (readyState st' !! w))
  ∧ within token ws st st'.
Proof.
  simpl. rewrite registerConnection_exec.
  destruct (String.eqb clientType "pc").
  - destruct (handlePCConnection_maps st ws token) as (-> & -> & ->).
    split_and!; [done..| |apply handlePCConnection_within].
    intros w Hw. rewrite handlePCConnection_exec. simpl. frame_rewrite.
    by apply supersede_known.
  - destruct (handlePhoneConnection_maps st ws token) as (-> & -> & ->).
    split_and!; [done..| |apply handlePhoneConnection_within].
    intros w Hw. rewrite handlePhoneConnection_exec. simpl. frame_rewrite.
    by apply supersede_known.
Qed.

Lemma consistent_new : consistent new_RelayServer.
Proof.
  repeat split; simpl; intros *; by rewrite lookup_empty.
Qed.

Lemma consistent_fresh st ws t :
  consistent st → readyState st !! ws = None → ¬ registered_under t st ws.
Proof.
  intros (Hpc & Hphone & Hknown) Hfresh Hreg.
  assert (is_Some (listeners st !! ws)) as Hl
    by (destruct Hreg as [H|H]; [apply Hpc in H | apply Hphone in H]; by eexists).
  apply Hknown in Hl. rewrite Hfresh in Hl. by destruct Hl.
Qed.

Lemma consistent_token st ws t t' c :
  consistent st → listeners st !! ws = Some (t, c) → registered_under t' st ws → t' = t.
Proof.
  intros (Hpc & Hphone & _) Hl [H|H]; [apply Hpc in H | apply Hphone in H]; congruence.
Qed.

Lemma consistent_rebuild st st' :
  consistent st →
  pcConnections st' = pcConnections st →
  phoneConnections st' = phoneConnections st →
  listeners st' = listeners st →
  (∀ w, is_Some (readyState st !! w) → is_Some (readyState st' !! w)) →
  consistent st'.
Proof.
  intros (Hpc & Hphone & Hknown) Epc Ephone El Hrs.
  repeat split; intros *; rewrite ?Epc, ?Ephone, ?El; auto.
Qed.

Lemma insert_known (rs : gmap WebSocket ReadyState) ws s w :
  is_Some (rs !! w) → is_Some (<[ws := s]> rs !! w).
Proof.
  intros H. destruct (decide (ws = w)) as [->|Hne].
  - by rewrite lookup_insert_eq.
  - by rewrite lookup_insert_ne.
Qed.

Lemma consistent_disconnect st token clientType :
  consistent st → consistent (exec (handleDisconnection token clientType) st).
Proof.
  intros (Hpc & Hphone & Hknown).
  destruct (handleDisconnection_maps st token clientType) as (Epc & Ephone & Ers & El).
  repeat split; intros *; rewrite ?Epc, ?Ephone, ?El, ?Ers; auto;
    destruct (String.eqb clientType "pc"); auto;
    intros [_ H]%lookup_delete_Some; auto.
Qed.

Lemma consistent_register st ws t c :
  consistent st → listeners st !! ws = None → is_Some (readyState st !! ws) →
  c = "pc" ∨ c = "phone" →
  consistent (set_listeners <[ws := (t, c)]> (exec (registerConnection c ws t) st)).
Proof.
  intros (Hpc & Hphone & Hknown) Hnew Hws Hc.
  destruct (registerConnection_frame st c ws t) as (Epc & Ephone & El & Hrs & _).
  assert (∀ t' w c', listeners st !! w = Some (t', c') →
                     <[ws := (t, c)]> (listeners st) !! w = Some (t', c')) as Hkeep.
  { intros t' w c' Hw. rewrite lookup_insert_ne; [done|]. intros ->. congruence. }
  repeat split; simpl; rewrite ?Epc, ?Ephone, ?El.
  - intros t' w. destruct Hc as [-> | ->]; simpl; [|by eauto].
    intros [[-> ->]|[_ H]]%lookup_insert_Some; [by rewrite lookup_insert_eq | eauto].
  - intros t' w. destruct Hc as [-> | ->]; simpl; [by eauto|].
    intros [[-> ->]|[_ H]]%lookup_insert_Some; [by rewrite lookup_insert_eq | eauto].
  - intros w. destruct (decide (ws = w)) as [->|Hne].
    + intros _. by apply Hrs.
    + rewrite lookup_insert_ne by done. intros Hw. by apply Hrs, Hknown.
Qed.

Lemma truthy_or_malformed token clientType :
  malformed_handshake token clientType
  ∨ (truthy token = true ∧ includes_pc_phone clientType = true).
Proof.
  destruct (truthy token) eqn:Ht.
  - destruct (includes_pc_phone clientType) eqn:Hi; [by right|left].
    do 3 right. split; intros ->; by vm_compute in Hi.
  - left. destruct token as [|[|]|]; try done; [by left | by right; left].
Qed.

(** Every turn of the event loop keeps the state consistent. *)
Lemma consistent_dispatch st ev st' :
  consistent st → dispatch ev st = Some st' → consistent st'.
Proof.
  intros Hst Hev. destruct ev as [ws token clientType|ws data|ws|ws|ws]; simpl in Hev.
  - destruct (readyState st !! ws) eqn:Hfresh; [done|]. simplify_eq.
    set (st0 := set_readyState <[ws := OPEN]> st).
    assert (consistent st0) as Hst0.
    { apply (consistent_rebuild st); try done. intros w. apply insert_known. }
    assert (listeners st0 !! ws = None) as Hnew.
    { destruct Hst as (_ & _ & Hknown). destruct (listeners st !! ws) eqn:E; [|done].
      assert (is_Some (readyState st !! ws)) as [? ?] by (apply Hknown; by eexists).
      congruence. }
    destruct (truthy_or_malformed token clientType) as [Hbad|[Ht Hi]].
    + destruct (onConnection_rejected st0 ws _ _ Hbad) as [reason ->].
      destruct (mark_closing_maps ws st0) as (Epc & Ephone & El & _).
      apply (consistent_rebuild st0); try done.
      intros w Hw. by apply (mark_closing_known ws st0 w).
    + destruct (onConnection_accepted st0 ws _ _ Ht Hi) as (t & c & _ & _ & Hc & ->).
      apply consistent_register; try done.
      subst st0. simpl. by rewrite lookup_insert_eq.
  - destruct (listeners st !! ws) as [[token clientType]|]; [|done].
    simpl in Hev. simplify_eq.
    destruct (handleMessage_maps st ws token clientType data) as (Epc & Ephone & Ers & El).
    apply (consistent_rebuild st); try done. by rewrite Ers.
  - destruct (listeners st !! ws) as [[token clientType]|]; [|done].
    simpl in Hev. simplify_eq. apply consistent_disconnect.
    apply (consistent_rebuild st); try done. intros w. apply insert_known.
  - destruct (listeners st !! ws) as [[token clientType]|]; [|done].
    simpl in Hev. simplify_eq. apply consistent_disconnect.
    destruct (mark_closing_maps ws st) as (Epc & Ephone & El & _).
    apply (consistent_rebuild st); try done. intros w. apply mark_closing_known.
  - destruct (readyState st !! ws) as [s|]; [|done]. simpl in Hev. simplify_eq.
    destruct (mark_closing_maps ws st) as (Epc & Ephone & El & _).
    apply (consistent_rebuild st); try done. intros w. apply mark_closing_known.
Qed.

Lemma consistent_run evs st st' :
  consistent st → run evs st = Some st' → consistent st'.
Proof.
  revert st. induction evs as [|ev evs IH]; intros st Hst Hrun; simpl in Hrun.
  - by simplify_eq.
  - destruct (dispatch ev st) as [st1|] eqn:Hev; [|done]. simpl in Hrun.
    eauto using consistent_dispatch.
Qed.

(** Every state the relay can reach is consistent. *)
Lemma reachable_consistent st : reachable st → consistent st.
Proof. intros [evs Hrun]. eauto using consistent_run, consistent_new. Qed.

(** ** Tokens do not interfere *)

Lemma within_start token ws st st0 st' :
  within token ws st0 st' →
  pcConnections st0 = pcConnections st → phoneConnections st0 = phoneConnections st →
  trace st0 = trace st →
  within token ws st st'.
Proof.
  intros (new & Htr & Hnew) Epc Ephone Etr. exists new. rewrite <- Etr.
  split; [done|]. eapply Forall_impl; [done|].
  intros [] He; simpl in *; try done;
    (destruct He as [?|He]; [by left | right];
     unfold registered_under in *; by rewrite <- Epc, <- Ephone).
Qed.

Lemma sent_to_local (S : WebSocket → Prop) token new ws :
  Forall (local_effect S token) new → ¬ S ws → sent_to ws new = [].
Proof.
  intros Hnew Hws. induction Hnew as [|[w d| | |] new He _ IH]; simpl in *; try done.
  destruct (decide (w = ws)) as [->|]; done.
Qed.

(** An event under token [A] runs its handler within [A], and leaves the
    slots of every other token as they are. *)
Lemma dispatch_within st ev st' A B :
  dispatch ev st = Some st' → event_token ev st = Some A → A ≠ B →
  within A (event_socket ev) st st'
  ∧ pcConnections st' !! B = pcConnections st !! B
  ∧ phoneConnections st' !! B = phoneConnections st !! B.
Proof.
  intros Hev HA Hne.
  destruct ev as [ws token clientType|ws data|ws|ws|ws]; simpl in *; [| | | |done].
  - destruct (readyState st !! ws) eqn:Hfresh; [done|]. simplify_eq.
    set (st0 := set_readyState <[ws := OPEN]> st).
    destruct (truthy token) eqn:Ht.
    + destruct (truthy_or_malformed token clientType) as [Hbad|[_ Hi]].
      * destruct (onConnection_rejected st0 ws _ _ Hbad) as [reason ->].
        destruct (mark_closing_maps ws st0) as (Epc & Ephone & _ & Etr). simpl.
        rewrite Epc, Ephone. split; [|done].
        exists [WsClose ws 1008 reason]. simpl. rewrite Etr.
        split; [done|]. constructor; [by left|done].
      * destruct (onConnection_accepted st0 ws _ _ Ht Hi) as (t & c & _ & Ht' & Hc & ->).
        assert (t = A) as -> by (simpl in Ht'; congruence).
        destruct (registerConnection_frame st0 c ws A) as (Epc & Ephone & _ & _ & Hw).
        simpl. rewrite Epc, Ephone. split.
        { apply (within_start _ _ _ st0); [|done..].
          destruct Hw as (new & Htr & Hnew). by exists new. }
        destruct (String.eqb c "pc"); by rewrite ?lookup_insert_ne.
    + destruct token as [|[|]|]; done.
  - destruct (listeners st !! ws) as [[token clientType]|]; [|done].
    simpl in *. simplify_eq.
    destruct (handleMessage_maps st ws A clientType data) as (-> & -> & _).
    split; [apply handleMessage_within | done].
  - destruct (listeners st !! ws) as [[token clientType]|]; [|done].
    simpl in *. simplify_eq.
    set (st0 := set_readyState <[ws := CLOSED]> st).
    destruct (handleDisconnection_maps st0 A clientType) as (-> & -> & _).
    split; [apply (within_start _ _ _ st0); [apply handleDisconnection_within | done..]|].
    destruct (String.eqb clientType "pc"); by rewrite ?lookup_delete_ne.
  - destruct (listeners st !! ws) as [[token clientType]|]; [|done].
    simpl in *. simplify_eq.
    set (st0 := mark_closing ws st).
    destruct (mark_closing_maps ws st) as (Epc & Ephone & _ & Etr).
    destruct (handleDisconnection_maps st0 A clientType) as (-> & -> & _).
    split; [apply (within_start _ _ _ st0); [apply handleDisconnection_within | done..]|].
    subst st0. rewrite Epc, Ephone.
    destruct (String.eqb clientType "pc"); by rewrite ?lookup_delete_ne.
Qed.

(** The socket of an event under token [A] is registered under no other
    token. *)
Lemma event_socket_elsewhere st ev st' A B :
  consistent st → dispatch ev st = Some st' → event_token ev st = Some A → A ≠ B →
  ¬ registered_under B st (event_socket ev).
Proof.
  intros Hst Hev HA Hne Hreg.
  destruct ev as [ws token clientType|ws data|ws|ws|ws]; simpl in *; [| | | |done].
  - destruct (readyState st !! ws) eqn:Hfresh; [done|].
    by apply (consistent_fresh st ws B).
  - destruct (listeners st !! ws) as [[token clientType]|] eqn:Hl; [|done].
    simpl in *. simplify_eq. by apply Hne, eq_sym, (consistent_token st ws A B clientType).
  - destruct (listeners st !! ws) as [[token clientType]|] eqn:Hl; [|done].
    simpl in *. simplify_eq. by apply Hne, eq_sym, (consistent_token st ws A B clientType).
  - destruct (listeners st !! ws) as [[token clientType]|] eqn:Hl; [|done].
    simpl in *. simplify_eq. by apply Hne, eq_sym, (consistent_token st ws A B clientType).
Qed.

(** C10.  In a consistent state (every reachable state is one), an event
    under token [A] leaves both slots of any other token [B] as they are,
    and none of the calls it makes is a send to a connection registered
    under [B]. *)
Theorem tokens_do_not_interfere st ev st' A B :
  consistent st → dispatch ev st = Some st' → event_token ev st = Some A → A ≠ B →
  pcConnections st' !! B = pcConnections st !! B
  ∧ phoneConnections st' !! B = phoneConnections st !! B
  ∧ ∃ new, trace st' = trace st ++ new
           ∧ ∀ ws, registered_under B st ws → sent_to ws new = [].
Proof.
  intros Hst Hev HA Hne.
  destruct (dispatch_within st ev st' A B Hev HA Hne) as ((new & Htr & Hnew) & Hpc & Hphone).
  split_and!; [done..|]. exists new. split; [done|].
  intros ws Hreg. apply (sent_to_local _ _ _ _ Hnew). intros [->|HregA].
  - by apply (event_socket_elsewhere st ev st' A B).
  - destruct Hst as (Cpc & Cphone & _).
    assert (∃ c, listeners st !! ws = Some (B, c)) as [c Hl]
      by (destruct Hreg as [H|H]; [apply Cpc in H | apply Cphone in H]; by eexists).
    assert (∃ c, listeners st !! ws = Some (A, c)) as [c' Hl']
      by (destruct HregA as [H|H]; [apply Cpc in H | apply Cphone in H]; by eexists).
    congruence.
Qed.

(** ** Teardown and arrival *)

(** A ['close'] event of a socket clears the slot of the token and client
    type its listeners captured, whichever connection that slot holds at
    the time: [handleDisconnection] is given the token and the client type
    only, no connection to compare with. *)
Lemma close_clears_slot st old token clientType :
  listeners st !! old = Some (token, clientType) →
  ∃ st', dispatch (Close old) st = Some st'
         ∧ connections clientType st' !! token = None.
Proof.
  intros Hl. simpl. rewrite Hl. simpl. eexists. split; [done|].
  match goal with |- context [exec ?h ?s] =>
    destruct (handleDisconnection_maps s token clientType) as (Epc & Ephone & _) end.
  unfold connections.
  destruct (String.eqb clientType "pc"); [rewrite Epc | rewrite Ephone];
    apply lookup_delete_eq.
Qed.

(** The last thing [handlePCConnection] does is send the arriving PC the
    same fixed confirmation, whatever the state of the phone slot. *)
Lemma pc_arrival_confirmation st ws token :
  ∃ before,
    trace (exec (handlePCConnection ws token) st)
    = before ++ [WsSend ws (JSON_stringify status_pc_registered)].
Proof. rewrite handlePCConnection_exec. simpl. by eexists. Qed.

(** A phone arriving in an empty slot is told whether the PC of its token
    is registered and open, and the PC, if it is, is told of the phone. *)
Lemma phone_arrival_told_pc_liveness st ws token :
  phoneConnections st !! token = None →
  trace (exec (handlePhoneConnection ws token) st)
  = trace st
    ++ MapSet PhoneConnections token ws
    :: WsSend ws (JSON_stringify
                    (status_phone_registered (live st (pcConnections st !! token))))
    :: match pcConnections st !! token with
       | Some pc => if live st (Some pc)
                    then [WsSend pc (JSON_stringify (status_phone_connected true))]
                    else []
       | None => []
       end.
Proof.
  intros Hnone. rewrite handlePhoneConnection_exec, Hnone. simpl.
  destruct (pcConnections st !! token) as [pc|]; simpl.
  - destruct (readyState st !! pc) as [[]|]; simpl; by rewrite <- ?app_assoc.
  - by rewrite <- app_assoc.
Qed.

(** A PC arriving in an empty slot: the phone of its token, if registered
    and open, is told of the PC. *)
Lemma pc_arrival_announced_to_phone st ws token :
  pcConnections st !! token = None →
  trace (exec (handlePCConnection ws token) st)
  = trace st
    ++ MapSet PcConnections token ws
    :: match phoneConnections st !! token with
       | Some phone => if live st (Some phone)
                       then [WsSend phone (JSON_stringify (status_pc_connected true))]
                       else []
       | None => []
       end
    ++ [WsSend ws (JSON_stringify status_pc_registered)].
Proof.
  intros Hnone. rewrite handlePCConnection_exec, Hnone. simpl.
  destruct (phoneConnections st !! token) as [phone|]; simpl.
  - destruct (readyState st !! phone) as [[]|]; simpl; by rewrite <- ?app_assoc.
  - by rewrite <- app_assoc.
Qed.

(** ** Malformed messages *)

(** X1.  A message that is not JSON, or is the JSON value [null], is answered
    with the ["Invalid message format"] error to its sender and has no
    other effect, whatever the client type and the state of the peer. *)
Theorem malformed_message_reported st ws token clientType message :
  JSON_parse message = None ∨ JSON_parse message = Some JNull →
  exec (handleMessage ws token clientType message) st
  = emit (WsSend ws (JSON_stringify error_invalid_format)) st.
Proof.
  intros [Hthrow|Hnull]; rewrite handleMessage_exec.
  - by rewrite Hthrow.
  - by rewrite Hnull.
Qed.

(** X2.  Handling one message makes at most one call, and that call is a send:
    the message is passed on, or an error is returned to the sender, or
    nothing happens - never two of these, never a close, never a write to
    a map. *)
Theorem message_yields_at_most_one_send st ws token clientType message :
  ∃ new,
    trace (exec (handleMessage ws token clientType message) st) = trace st ++ new
    ∧ Forall is_send new
    ∧ (length new ≤ 1)%nat.
Proof.
  assert (∀ x data, ∃ new, trace (notify x data st) = trace st ++ new
                           ∧ Forall is_send new ∧ (length new ≤ 1)%nat) as Hnotify.
  { intros x data. destruct (notify_cases x data st) as [->|(w & _ & _ & ->)].
    - exists []. rewrite app_nil_r. split_and!; [done|constructor|simpl; lia].
    - exists [WsSend w data]. split_and!; [done|by repeat constructor|simpl; lia]. }
  assert (∀ data, ∃ new, trace (emit (WsSend ws data) st) = trace st ++ new
                         ∧ Forall is_send new ∧ (length new ≤ 1)%nat) as Herror.
  { intros data. exists [WsSend ws data].
    split_and!; [done|by repeat constructor|simpl; lia]. }
  rewrite handleMessage_exec.
  destruct (JSON_parse message) as [data|]; [|apply Herror].
  destruct data; simpl;
    repeat match goal with |- context [if ?b then _ else _] => destruct b end;
    first [ apply Hnotify | apply Herror
          | exists []; rewrite app_nil_r; split_and!; [done|constructor|simpl; lia] ].
Qed.

(** ** Status notifications *)

Lemma notify_trace x data st :
  trace (notify x data st)
  = trace st ++ match x with
                | Some w => if live st x then [WsSend w data] else []
                | None => []
                end.
Proof.
  destruct x as [w|]; simpl; [|by rewrite app_nil_r].
  destruct (readyState st !! w) as [[]|]; simpl; by rewrite ?app_nil_r.
Qed.

Lemma sent_to_app ws tr1 tr2 : sent_to ws (tr1 ++ tr2) = sent_to ws tr1 ++ sent_to ws tr2.
Proof. apply omap_app. Qed.

Lemma sent_to_one ws w data :
  sent_to ws [WsSend w data] = if decide (w = ws) then [data] else [].
Proof. simpl. by destruct (decide (w = ws)). Qed.

Lemma sent_to_notification st x data w :
  sent_to w (match x with
             | Some p => if live st x then [WsSend p data] else []
             | None => []
             end)
  = if decide (x = Some w ∧ readyState st !! w = Some OPEN) then [data] else [].
Proof.
  destruct x as [p|]; [|by case_decide as Hd; [destruct Hd|]].
  unfold live. destruct (readyState st !! p) as [[]|] eqn:E;
    rewrite ?sent_to_one; repeat case_decide; simplify_eq; try done;
    exfalso;
    match goal with
    | H : ¬ (_ ∧ _) |- _ => apply H; by split
    | H : _ ∧ _ |- _ => destruct H; congruence
    end.
Qed.

(** X3.  When a connection of [clientType] goes away, [handleDisconnection]
    closes nothing, and sends exactly one message: the offline status, to
    the connection in the peer slot, provided that connection is open.  A
    peer that is absent or not open is sent nothing. *)
Theorem disconnect_notifies_live_peer st token clientType :
  clientType = "pc" ∨ clientType = "phone" →
  ∃ new,
    trace (exec (handleDisconnection token clientType) st) = trace st ++ new
    ∧ closes_of new = []
    ∧ ∀ w, sent_to w new
           = if decide (peer_slot clientType token st = Some w
                        ∧ readyState st !! w = Some OPEN)
             then [JSON_stringify (offline_status clientType)] else [].
Proof.
  intros Hc. rewrite handleDisconnection_exec. unfold peer_slot, offline_status.
  destruct Hc as [-> | ->]; simpl; rewrite notify_trace; simpl;
    rewrite <- app_assoc; eexists; (split; [reflexivity|]); simpl.
  - split.
    + destruct (phoneConnections st !! token) as [p|]; simpl; [|done].
      by destruct (readyState st !! p) as [[]|].
    + intros w. apply (sent_to_notification st).
  - split.
    + destruct (pcConnections st !! token) as [p|]; simpl; [|done].
      by destruct (readyState st !! p) as [[]|].
    + intros w. apply (sent_to_notification st).
Qed.

(** ** What a handler appends to the trace *)

Lemma supersede_trace x reason st :
  trace (supersede x reason st)
  = trace st ++ match x with
                | Some old => [WsClose old 1000 reason]
                | None => []
                end.
Proof.
  destruct x as [old|]; simpl; [|by rewrite app_nil_r].
  by destruct (mark_closing_maps old st) as (_ & _ & _ & ->).
Qed.

Lemma supersede_readyState x reason st w :
  x ≠ Some w → readyState (supersede x reason st) !! w = readyState st !! w.
Proof.
  destruct x as [old|]; simpl; [|done]. intros Hne. unfold mark_closing.
  destruct (readyState st !! old); simpl; [|done].
  rewrite lookup_insert_ne; [done|]. by intros ->.
Qed.

Lemma live_supersede x reason st y :
  (∀ w, x = Some w → y ≠ Some w) →
  live (supersede x reason st) y = live st y.
Proof.
  intros Hne. destruct y as [w|]; simpl; [|done].
  rewrite supersede_readyState; [done|]. intros ->. by apply (Hne w).
Qed.

Lemma closes_of_notification st x data :
  closes_of (match x with
             | Some p => if live st x then [WsSend p data] else []
             | None => []
             end) = [].
Proof. destruct x as [p|]; [|done]. by destruct (live st (Some p)). Qed.

Lemma handleDisconnection_trace st token clientType :
  clientType = "pc" ∨ clientType = "phone" →
  trace (exec (handleDisconnection token clientType) st)
  = trace st
    ++ MapDelete (map_of clientType) token
    :: match peer_slot clientType token st with
       | Some p => if live st (peer_slot clientType token st)
                   then [WsSend p (JSON_stringify (offline_status clientType))]
                   else []
       | None => []
       end.
Proof.
  intros Hc. rewrite handleDisconnection_exec. unfold peer_slot, offline_status, map_of.
  destruct Hc as [-> | ->]; simpl; rewrite notify_trace; simpl;
    by rewrite <- app_assoc.
Qed.

Lemma registerConnection_trace st clientType ws token :
  clientType = "pc" ∨ clientType = "phone" →
  let old := connections clientType st !! token in
  let peer := peer_slot clientType token st in
  let st1 := supersede old (supersede_reason clientType) st in
  trace (exec (registerConnection clientType ws token) st)
  = trace st
    ++ match old with
       | Some old => [WsClose old 1000 (supersede_reason clientType)]
       | None => []
       end
    ++ [MapSet (map_of clientType) token ws]
    ++ (if String.eqb clientType "pc" then [] else
          [WsSend ws (JSON_stringify (registered_status clientType (live st1 peer)))])
    ++ match peer with
       | Some p => if live st1 peer
                   then [WsSend p (JSON_stringify (online_status clientType))]
                   else []
       | None => []
       end
    ++ (if String.eqb clientType "pc" then
          [WsSend ws (JSON_stringify (registered_status clientType (live st1 peer)))]
        else []).
Proof.
  intros Hc. rewrite registerConnection_exec.
  unfold connections, peer_slot, supersede_reason, map_of, registered_status, online_status.
  destruct Hc as [-> | ->]; simpl.
  - rewrite handlePCConnection_exec. simpl. rewrite notify_trace. simpl.
    rewrite supersede_trace. rewrite <- !app_assoc. simpl. rewrite ?app_nil_r. reflexivity.
  - rewrite handlePhoneConnection_exec. simpl. rewrite notify_trace. simpl.
    rewrite supersede_trace. rewrite <- !app_assoc. simpl. rewrite ?app_nil_r. reflexivity.
Qed.

Lemma registerConnection_readyState st clientType ws token :
  readyState (exec (registerConnection clientType ws token) st)
  = readyState (supersede (connections clientType st !! token)
                          (supersede_reason clientType) st).
Proof.
  rewrite registerConnection_exec. unfold connections, supersede_reason.
  destruct (String.eqb clientType "pc").
  - rewrite handlePCConnection_exec. simpl. by frame_rewrite.
  - rewrite handlePhoneConnection_exec. simpl. by frame_rewrite.
Qed.

(** ** Registration *)

Lemma registerConnection_closes st clientType ws token :
  clientType = "pc" ∨ clientType = "phone" →
  closes_of (trace (exec (registerConnection clientType ws token) st))
  = closes_of (trace st)
    ++ match connections clientType st !! token with
       | Some old => [(old, 1000, supersede_reason clientType)]
       | None => []
       end.
Proof.
  intros Hc. rewrite (registerConnection_trace st _ ws token Hc).
  rewrite !closes_of_app, closes_of_notification.
  destruct (connections clientType st !! token); destruct Hc as [-> | ->]; simpl;
    by rewrite ?app_nil_r.
Qed.

(** X4.  A handshake with a non-empty [token] and [client] ["pc"] or ["phone"]
    is accepted: the socket is stored in the slot of that token and client
    type, its listeners capture that token and client type, the slot of the
    peer and the slots of every other token stay as they are, and the only
    [close] the relay makes is that of the previous occupant of the slot,
    with code 1000 - the new socket is not closed. *)
Theorem valid_handshake_registers st ws s clientType :
  s ≠ EmptyString → clientType = "pc" ∨ clientType = "phone" →
  let st' := exec (onConnection ws (QString s) (QString clientType)) st in
  connections clientType st' !! inl s = Some ws
  ∧ listeners st' !! ws = Some (inl s, clientType)
  ∧ peer_slot clientType (inl s) st' = peer_slot clientType (inl s) st
  ∧ (∀ t, t ≠ inl s →
          pcConnections st' !! t = pcConnections st !! t
          ∧ phoneConnections st' !! t = phoneConnections st !! t)
  ∧ closes_of (trace st')
    = closes_of (trace st)
      ++ match connections clientType st !! inl s with
         | Some old => [(old, 1000, supersede_reason clientType)]
         | None => []
         end.
Proof.
  intros Hs Hc.
  assert (exec (onConnection ws (QString s) (QString clientType)) st
          = set_listeners <[ws := (inl s, clientType)]>
              (exec (registerConnection clientType ws (inl s)) st)) as ->.
  { unfold onConnection. destruct s as [|a s]; [done|].
    destruct Hc as [-> | ->]; simpl;
      unfold exec at 1, bind; by rewrite registerConnection_normal. }
  destruct (registerConnection_frame st clientType ws (inl s)) as (Epc & Ephone & _).
  pose proof (registerConnection_closes st clientType ws (inl s) Hc) as Hcl.
  simpl. split_and!.
  - unfold connections. simpl. rewrite Epc, Ephone.
    destruct Hc as [-> | ->]; simpl; apply lookup_insert_eq.
  - apply lookup_insert_eq.
  - unfold peer_slot. simpl. rewrite Epc, Ephone. by destruct Hc as [-> | ->].
  - intros t Ht. rewrite Epc, Ephone.
    destruct Hc as [-> | ->]; simpl; by rewrite lookup_insert_ne.
  - done.
Qed.

(** X5.  A connection that registers into an empty slot and then goes away
    leaves both maps exactly as they were before it came. *)
Theorem register_then_disconnect_restores_registry st ws token clientType :
  clientType = "pc" ∨ clientType = "phone" →
  connections clientType st !! token = None →
  let st' := exec (handleDisconnection token clientType)
                  (exec (registerConnection clientType ws token) st) in
  pcConnections st' = pcConnections st ∧ phoneConnections st' = phoneConnections st.
Proof.
  intros Hc Hnone. simpl.
  destruct (handleDisconnection_maps
              (exec (registerConnection clientType ws token) st) token clientType)
    as (-> & -> & _).
  destruct (registerConnection_frame st clientType ws token) as (-> & -> & _).
  unfold connections in Hnone.
  destruct Hc as [-> | ->]; simpl in *; by rewrite delete_insert_id.
Qed.

(** X6.  Once an open connection has registered in a slot, the relayable
    messages of the other side go to it: the newcomer is the addressee,
    whoever held the slot before. *)
Theorem registration_redirects_routing st ws token clientType sender senderType message :
  (clientType = "pc" ∧ senderType = "phone") ∨ (clientType = "phone" ∧ senderType = "pc") →
  readyState st !! ws = Some OPEN →
  connections clientType st !! token ≠ Some ws →
  relayable message →
  let st1 := exec (registerConnection clientType ws token) st in
  exec (handleMessage sender token senderType message) st1
  = emit (WsSend ws message) st1.
Proof.
  intros Hc Hopen Hold Hmsg. simpl.
  destruct (registerConnection_frame st clientType ws token) as (Epc & Ephone & _).
  apply relayable_forwarded; [destruct Hc as [[_ ->]|[_ ->]]; auto|done| |].
  - unfold peer_slot. rewrite Epc, Ephone.
    destruct Hc as [[-> ->]|[-> ->]]; simpl; apply lookup_insert_eq.
  - rewrite registerConnection_readyState, supersede_readyState; done.
Qed.

(** ** Teardown *)

Lemma mark_closing_other ws st w :
  w ≠ ws → readyState (mark_closing ws st) !! w = readyState st !! w.
Proof.
  intros Hne. unfold mark_closing. destruct (readyState st !! ws); simpl; [|done].
  by rewrite lookup_insert_ne.
Qed.

Lemma peer_slot_disconnect st token clientType :
  clientType = "pc" ∨ clientType = "phone" →
  peer_slot clientType token (exec (handleDisconnection token clientType) st)
  = peer_slot clientType token st.
Proof.
  intros Hc. unfold peer_slot.
  destruct (handleDisconnection_maps st token clientType) as (-> & -> & _).
  by destruct Hc as [-> | ->].
Qed.

(** One disconnection in a state where the peer [p] is registered and
    open. *)
Lemma handleDisconnection_live st token clientType p :
  clientType = "pc" ∨ clientType = "phone" →
  peer_slot clientType token st = Some p → readyState st !! p = Some OPEN →
  trace (exec (handleDisconnection token clientType) st)
  = trace st ++ [MapDelete (map_of clientType) token;
                 WsSend p (JSON_stringify (offline_status clientType))].
Proof.
  intros Hc Hp Hopen. rewrite handleDisconnection_trace by done.
  rewrite Hp. simpl. by rewrite Hopen.
Qed.

(** X7.  Both the ['error'] and the ['close'] listener call
    [handleDisconnection].  When a socket reports an error and then
    closes, its open peer is therefore sent the offline status twice; the
    slot is empty after the first of the two. *)
Theorem error_then_close_notifies_twice st ws token clientType p :
  clientType = "pc" ∨ clientType = "phone" →
  listeners st !! ws = Some (token, clientType) →
  peer_slot clientType token st = Some p → p ≠ ws →
  readyState st !! p = Some OPEN →
  ∃ st1 st2,
    dispatch (Error ws) st = Some st1 ∧ dispatch (Close ws) st1 = Some st2
    ∧ connections clientType st1 !! token = None
    ∧ connections clientType st2 !! token = None
    ∧ sent_to p (trace st2)
      = sent_to p (trace st)
        ++ [JSON_stringify (offline_status clientType);
            JSON_stringify (offline_status clientType)].
Proof.
  intros Hc Hl Hp Hne Hopen.
  set (st0 := mark_closing ws st).
  set (st1 := exec (handleDisconnection token clientType) st0).
  destruct (mark_closing_maps ws st) as (Epc0 & Ephone0 & El0 & Etr0).
  assert (peer_slot clientType token st0 = Some p) as Hp0
    by (unfold peer_slot in *; subst st0; by rewrite Epc0, Ephone0).
  assert (readyState st0 !! p = Some OPEN) as Hopen0
    by (subst st0; by rewrite mark_closing_other).
  destruct (handleDisconnection_maps st0 token clientType) as (Epc1 & Ephone1 & Ers1 & El1).
  fold st1 in Epc1, Ephone1, Ers1, El1.
  pose proof (handleDisconnection_live st0 token clientType p Hc Hp0 Hopen0) as Htr1.
  fold st1 in Htr1.
  assert (listeners st1 !! ws = Some (token, clientType)) as Hl1
    by (rewrite El1; subst st0; by rewrite El0).
  set (st1' := set_readyState <[ws := CLOSED]> st1).
  set (st2 := exec (handleDisconnection token clientType) st1').
  assert (peer_slot clientType token st1' = Some p) as Hp1.
  { change (peer_slot clientType token st1 = Some p). subst st1.
    by rewrite peer_slot_disconnect. }
  assert (readyState st1' !! p = Some OPEN) as Hopen1.
  { subst st1'. simpl. rewrite lookup_insert_ne by done. by rewrite Ers1. }
  pose proof (handleDisconnection_live st1' token clientType p Hc Hp1 Hopen1) as Htr2.
  fold st2 in Htr2.
  destruct (handleDisconnection_maps st1' token clientType) as (Epc2 & Ephone2 & _).
  fold st2 in Epc2, Ephone2.
  exists st1, st2. split_and!.
  - simpl. by rewrite Hl.
  - simpl. by rewrite Hl1.
  - unfold connections. rewrite Epc1, Ephone1.
    destruct Hc as [-> | ->]; simpl; apply lookup_delete_eq.
  - unfold connections. rewrite Epc2, Ephone2.
    destruct Hc as [-> | ->]; simpl; apply lookup_delete_eq.
  - rewrite Htr2. change (trace st1') with (trace st1). rewrite Htr1.
    subst st0. rewrite Etr0, !sent_to_app. simpl.
    rewrite decide_True by done. by rewrite <- app_assoc.
Qed.

(** X8.  In a reachable state a socket occupies at most one slot: it is never
    in both maps, and never under two tokens. *)
Theorem socket_in_one_slot st ws t t' :
  reachable st →
  (pcConnections st !! t = Some ws → phoneConnections st !! t' ≠ Some ws)
  ∧ (registered_under t st ws → registered_under t' st ws → t = t').
Proof.
  intros (Cpc & Cphone & _)%reachable_consistent. split.
  - intros Hpc%Cpc Hphone%Cphone. congruence.
  - intros [H|H] [H'|H'];
      try apply Cpc in H; try apply Cphone in H;
      try apply Cpc in H'; try apply Cphone in H'; congruence.
Qed.

(** X9.  In a reachable state, once the ['close'] or ['error'] listener of a
    socket has run, that socket is in no slot. *)
Theorem closing_connection_is_unregistered st ws st' :
  reachable st →
  dispatch (Close ws) st = Some st' ∨ dispatch (Error ws) st = Some st' →
  ∀ t, ¬ registered_under t st' ws.
Proof.
  intros (Cpc & Cphone & _)%reachable_consistent Hev t Hreg. simpl in Hev.
  destruct (listeners st !! ws) as [[token clientType]|] eqn:Hl;
    [|by destruct Hev].
  simpl in Hev.
  assert (∃ st0, pcConnections st0 = pcConnections st
                 ∧ phoneConnections st0 = phoneConnections st
                 ∧ st' = exec (handleDisconnection token clientType) st0)
    as (st0 & Epc0 & Ephone0 & ->).
  { destruct Hev as [Hev|Hev]; simplify_eq; eexists; (split_and!; [| |done]);
      try done; by destruct (mark_closing_maps ws st) as (? & ? & _). }
  destruct (handleDisconnection_maps st0 token clientType) as (Epc & Ephone & _).
  unfold registered_under in Hreg. rewrite Epc, Ephone, Epc0, Ephone0 in Hreg.
  destruct Hreg as [H|H].
  - destruct (String.eqb clientType "pc") eqn:Ec.
    + apply lookup_delete_Some in H as [Hne H]. apply Cpc in H. congruence.
    + apply Cpc in H. apply String.eqb_neq in Ec. congruence.
  - destruct (String.eqb clientType "pc") eqn:Ec.
    + apply Cphone in H. apply String.eqb_eq in Ec. congruence.
    + apply lookup_delete_Some in H as [Hne H]. apply Cphone in H. congruence.
Qed.

(** ** No send to a peer that is not open *)

Lemma sends_guarded_start st ws st0 :
  trace st0 = trace st →
  (∀ w, readyState st0 !! w = Some OPEN → w = ws ∨ readyState st !! w = Some OPEN) →
  sends_guarded st ws st0.
Proof. intros Htr Hrs. split; [|done]. exists []. by rewrite app_nil_r. Qed.

Lemma sends_guarded_same st ws st1 st2 :
  sends_guarded st ws st1 →
  trace st2 = trace st1 → readyState st2 = readyState st1 →
  sends_guarded st ws st2.
Proof. intros [(new & Htr & Hnew) Hrs] Et Er. rewrite <- Er in Hrs. split; [|done].
  exists new. by rewrite Et. Qed.

Lemma sends_guarded_emit st ws st1 e :
  sends_guarded st ws st1 → guarded st ws e → sends_guarded st ws (emit e st1).
Proof.
  intros [(new & Htr & Hnew) Hrs] He. split; [|done].
  exists (new ++ [e]). simpl. rewrite Htr, <- app_assoc. split; [done|].
  apply Forall_app. split; [done | by constructor].
Qed.

Lemma sends_guarded_notify st ws st1 x data :
  sends_guarded st ws st1 → sends_guarded st ws (notify x data st1).
Proof.
  intros Hg. destruct (notify_cases x data st1) as [->|(w & -> & Hopen & ->)]; [done|].
  apply sends_guarded_emit; [done|]. simpl. by apply Hg.
Qed.

Lemma mark_closing_open ws st w :
  readyState (mark_closing ws st) !! w = Some OPEN → readyState st !! w = Some OPEN.
Proof.
  unfold mark_closing. destruct (readyState st !! ws) as [s|] eqn:E; simpl; [|done].
  destruct (decide (ws = w)) as [->|Hne].
  - rewrite lookup_insert_eq. by destruct s.
  - by rewrite lookup_insert_ne.
Qed.

Lemma sends_guarded_mark_closing st ws st1 old :
  sends_guarded st ws st1 → sends_guarded st ws (mark_closing old st1).
Proof.
  intros [(new & Htr & Hnew) Hrs].
  destruct (mark_closing_maps old st1) as (_ & _ & _ & Et). split.
  - exists new. by rewrite Et.
  - intros w Hw. by apply Hrs, (mark_closing_open old).
Qed.

Lemma sends_guarded_supersede st ws st1 x reason :
  sends_guarded st ws st1 → sends_guarded st ws (supersede x reason st1).
Proof.
  intros Hg. destruct x as [old|]; simpl; [|done].
  apply sends_guarded_emit; [|done]. by apply sends_guarded_mark_closing.
Qed.

Lemma registerConnection_guarded st ws st0 clientType token :
  sends_guarded st ws st0 →
  sends_guarded st ws (exec (registerConnection clientType ws token) st0).
Proof.
  intros Hg. rewrite registerConnection_exec. destruct (String.eqb clientType "pc").
  - rewrite handlePCConnection_exec.
    apply sends_guarded_emit; [|simpl; by auto].
    apply sends_guarded_notify.
    apply sends_guarded_emit; [|done].
    apply (sends_guarded_same _ _
             (supersede (pcConnections st0 !! token) "New PC connection" st0));
      [|done..].
    by apply sends_guarded_supersede.
  - rewrite handlePhoneConnection_exec. simpl.
    apply sends_guarded_notify.
    apply sends_guarded_emit; [|simpl; by auto].
    apply sends_guarded_emit; [|done].
    apply (sends_guarded_same _ _
             (supersede (phoneConnections st0 !! token) "New phone connection" st0));
      [|done..].
    by apply sends_guarded_supersede.
Qed.

Lemma handleDisconnection_guarded st ws st0 clientType token :
  sends_guarded st ws st0 →
  sends_guarded st ws (exec (handleDisconnection token clientType) st0).
Proof.
  intros Hg. rewrite handleDisconnection_exec. destruct (String.eqb clientType "pc");
    apply sends_guarded_notify; (apply sends_guarded_emit; [|done]);
    by apply (sends_guarded_same _ _ st0).
Qed.

Lemma handleMessage_guarded st ws st0 clientType token message :
  sends_guarded st ws st0 →
  sends_guarded st ws (exec (handleMessage ws token clientType message) st0).
Proof.
  intros Hg. rewrite handleMessage_exec.
  destruct (JSON_parse message) as [data|];
    [|apply sends_guarded_emit; [done|simpl; by auto]].
  destruct data; simpl;
    repeat match goal with |- context [if ?b then _ else _] => destruct b end;
    first [ done
          | by apply sends_guarded_notify
          | apply sends_guarded_emit; [done|simpl; by auto] ].
Qed.

(** X10.  Whatever the event, every send the relay makes goes either to the
    socket the event is about (the arrival, the sender) or to a socket that
    was open when the event arrived: no peer that is closing or closed is
    ever sent anything. *)
Theorem sends_only_to_open_peers st ev st' :
  dispatch ev st = Some st' →
  ∃ new, trace st' = trace st ++ new
         ∧ ∀ w data, WsSend w data ∈ new →
                     w = event_socket ev ∨ readyState st !! w = Some OPEN.
Proof.
  intros Hev.
  assert (sends_guarded st (event_socket ev) st') as [(new & Htr & Hnew) _].
  { destruct ev as [ws token clientType|ws data|ws|ws|ws]; simpl in *.
    - destruct (readyState st !! ws) eqn:Hfresh; [done|]. simplify_eq.
      assert (sends_guarded st ws (set_readyState <[ws := OPEN]> st)) as Hg0.
      { apply sends_guarded_start; [done|]. intros w. simpl.
        destruct (decide (ws = w)) as [->|Hne]; [by left|].
        rewrite lookup_insert_ne by done. by right. }
      destruct (truthy_or_malformed token clientType) as [Hbad|[Ht Hi]].
      + destruct (onConnection_rejected (set_readyState <[ws := OPEN]> st) ws _ _ Hbad)
          as [reason ->].
        apply sends_guarded_emit; [|done]. by apply sends_guarded_mark_closing.
      + destruct (onConnection_accepted (set_readyState <[ws := OPEN]> st) ws _ _ Ht Hi)
          as (t & c & _ & _ & _ & ->).
        eapply sends_guarded_same; [|reflexivity|reflexivity].
        by apply registerConnection_guarded.
    - destruct (listeners st !! ws) as [[token clientType]|]; [|done].
      simpl in Hev. simplify_eq.
      apply handleMessage_guarded, sends_guarded_start; auto.
    - destruct (listeners st !! ws) as [[token clientType]|]; [|done].
      simpl in Hev. simplify_eq.
      apply handleDisconnection_guarded, sends_guarded_start; [done|].
      intros w. simpl. destruct (decide (ws = w)) as [->|Hne].
      + by rewrite lookup_insert_eq.
      + rewrite lookup_insert_ne by done. by right.
    - destruct (listeners st !! ws) as [[token clientType]|]; [|done].
      simpl in Hev. simplify_eq.
      apply handleDisconnection_guarded, sends_guarded_mark_closing,
        sends_guarded_start; auto.
    - destruct (readyState st !! ws); [|done]. simpl in Hev. simplify_eq.
      apply sends_guarded_mark_closing, sends_guarded_start; auto. }
  exists new. split; [done|].
  intros w data Hin. rewrite Forall_forall in Hnew. by apply (Hnew _ Hin).
Qed.

(** ** What an arrival and its peer are told *)

Lemma onConnection_valid st ws s clientType :
  s ≠ EmptyString → clientType = "pc" ∨ clientType = "phone" →
  exec (onConnection ws (QString s) (QString clientType)) st
  = set_listeners <[ws := (inl s, clientType)]>
      (exec (registerConnection clientType ws (inl s)) st).
Proof.
  intros Hs Hc. unfold onConnection. destruct s as [|a s]; [done|].
  destruct Hc as [-> | ->]; simpl;
    unfold exec at 1, bind; by rewrite registerConnection_normal.
Qed.

Lemma sent_to_closes w (x : option WebSocket) reason :
  sent_to w (match x with
             | Some old => [WsClose old 1000 reason]
             | None => []
             end) = [].
Proof. by destruct x. Qed.

Lemma sent_to_MapSet w m t x tr : sent_to w (MapSet m t x :: tr) = sent_to w tr.
Proof. done. Qed.

Lemma live_decide st p (l : list string) :
  (if decide (Some p = Some p ∧ readyState st !! p = Some OPEN) then l else [])
  = if live st (Some p) then l else [].
Proof.
  simpl. destruct (readyState st !! p) as [[]|] eqn:E; case_decide as Hd;
    try done; try (by destruct Hd); exfalso; by apply Hd.
Qed.

(** X11.  A connection arriving with a valid handshake in a reachable state.
    The arrival is sent exactly one message, its registration status (for
    a phone this carries [pc_connected], the liveness of the PC of its
    token).  The peer of its token, if open, is sent exactly one message,
    the online status of the arrival; a peer that is not open is sent
    nothing; and no other socket is sent anything. *)
Theorem arrival_notifications st ws s clientType st' :
  reachable st → s ≠ EmptyString → clientType = "pc" ∨ clientType = "phone" →
  dispatch (Connection ws (QString s) (QString clientType)) st = Some st' →
  let peer := peer_slot clientType (inl s) st in
  ∃ new,
    trace st' = trace st ++ new
    ∧ sent_to ws new = [JSON_stringify (registered_status clientType (live st peer))]
    ∧ (∀ p, peer = Some p →
            sent_to p new = if live st peer
                            then [JSON_stringify (online_status clientType)] else [])
    ∧ (∀ w, w ≠ ws → peer ≠ Some w → sent_to w new = []).
Proof.
  intros Hreach Hs Hc Hev. pose proof (reachable_consistent _ Hreach) as Hst.
  simpl in Hev. destruct (readyState st !! ws) eqn:Hfresh; [done|]. simplify_eq.
  set (st0 := set_readyState <[ws := OPEN]> st).
  set (old := connections clientType st !! inl s).
  set (peer := peer_slot clientType (inl s) st).
  assert (peer ≠ Some ws) as Hpeer_ws.
  { intros Hp. apply (consistent_fresh st ws (inl s) Hst Hfresh).
    subst peer. unfold peer_slot, registered_under in *.
    destruct (String.eqb clientType "phone"); auto. }
  assert (∀ w, old = Some w → peer ≠ Some w) as Hold_peer.
  { destruct Hst as (Cpc & Cphone & _). subst old peer.
    unfold connections, peer_slot. intros w.
    destruct Hc as [-> | ->]; simpl.
    - intros H1%Cpc H2%Cphone. congruence.
    - intros H1%Cphone H2%Cpc. congruence. }
  assert (live (supersede old (supersede_reason clientType) st0) peer = live st peer)
    as Hlive.
  { rewrite live_supersede by done. destruct peer as [p|] eqn:Ep; [|done].
    simpl. rewrite lookup_insert_ne; [done|]. intros ->. by apply Hpeer_ws. }
  rewrite onConnection_valid by done.
  pose proof (registerConnection_trace st0 clientType ws (inl s) Hc) as Htr.
  simpl in Htr.
  change (connections clientType st0 !! inl s) with old in Htr.
  change (peer_slot clientType (inl s) st0) with peer in Htr.
  rewrite Hlive in Htr.
  eexists. split; [exact Htr|].
  split_and!.
  - rewrite sent_to_app, sent_to_closes, sent_to_MapSet, !sent_to_app,
      sent_to_notification.
    rewrite decide_False by (intros [? _]; done).
    destruct Hc as [-> | ->]; simpl; by rewrite decide_True.
  - intros p Hp. rewrite sent_to_app, sent_to_closes, sent_to_MapSet, !sent_to_app,
      sent_to_notification.
    assert (ws ≠ p) as Hne by (intros ->; by apply Hpeer_ws).
    rewrite Hp. rewrite live_decide.
    destruct Hc as [-> | ->]; simpl; rewrite decide_False by done;
      by rewrite ?app_nil_r.
  - intros w Hw Hpw. rewrite sent_to_app, sent_to_closes, sent_to_MapSet, !sent_to_app,
      sent_to_notification.
    rewrite decide_False by (intros [? _]; done).
    destruct Hc as [-> | ->]; simpl; by rewrite decide_False.
Qed.

End Relay.

(** * Concrete runs

    The tokens ["abc"] and ["xyz"], sockets numbered in the order they
    connect, and the runtime [parse] / [stringify] above. *)

(** C1.  A PC whose phone is not connected sends a click: the event leaves
    the state as it was, trace included, so the PC is sent no error.  (The
    phone in the mirrored situation is sent one, see
    [phone_sender_gets_error].) *)
Theorem pc_sender_gets_no_error :
  ∃ st,
    run parse stringify [Connection 1 (QString "abc") (QString "pc")] new_RelayServer
      = Some st
    ∧ phoneConnections st !! inl "abc" = None
    ∧ relayable parse (stringify click)
    ∧ dispatch parse stringify (Message 1 (stringify click)) st = Some st.
Proof.
  eexists. split; [vm_compute; reflexivity|].
  split; [reflexivity|]. split; [|vm_compute; reflexivity].
  exists click. split; [vm_compute; reflexivity|]. by split.
Qed.

Example phone_sender_gets_error :
  ∃ st st',
    run parse stringify [Connection 1 (QString "abc") (QString "phone")] new_RelayServer
      = Some st
    ∧ dispatch parse stringify (Message 1 (stringify click)) st = Some st'
    ∧ trace st' = trace st ++ [WsSend 1 (stringify error_pc_not_connected)].
Proof.
  do 2 eexists. split; [vm_compute; reflexivity|].
  split; [vm_compute; reflexivity|]. vm_compute. reflexivity.
Qed.

(** C2.  PC 1 registers under ["abc"], PC 2 registers under ["abc"] and
    supersedes it (the relay itself closes socket 1); when the ['close']
    event of socket 1 then arrives, the slot, which holds socket 2, is
    cleared although socket 2 is open.  With a phone connected the phone is
    moreover told that the PC is offline, see
    [stale_close_reports_open_pc_offline]. *)
Theorem stale_close_clears_newer_connection :
  ∃ st st',
    run parse stringify [Connection 1 (QString "abc") (QString "pc");
                         Connection 2 (QString "abc") (QString "pc")] new_RelayServer
      = Some st
    ∧ pcConnections st !! inl "abc" = Some 2%positive
    ∧ dispatch parse stringify (Close 1) st = Some st'
    ∧ pcConnections st' !! inl "abc" = None
    ∧ readyState st' !! 2%positive = Some OPEN.
Proof.
  do 2 eexists. split; [vm_compute; reflexivity|].
  split; [reflexivity|]. split; [vm_compute; reflexivity|]. by split.
Qed.

Example stale_close_reports_open_pc_offline :
  ∃ st st',
    run parse stringify [Connection 1 (QString "abc") (QString "phone");
                         Connection 2 (QString "abc") (QString "pc");
                         Connection 3 (QString "abc") (QString "pc")] new_RelayServer
      = Some st
    ∧ pcConnections st !! inl "abc" = Some 3%positive
    ∧ dispatch parse stringify (Close 2) st = Some st'
    ∧ pcConnections st' !! inl "abc" = None
    ∧ readyState st' !! 3%positive = Some OPEN
    ∧ trace st' = trace st ++ [MapDelete PcConnections (inl "abc");
                               WsSend 1 (stringify (status_pc_connected false))].
Proof.
  do 2 eexists. split; [vm_compute; reflexivity|].
  split; [reflexivity|]. split; [vm_compute; reflexivity|].
  split; [reflexivity|]. split; [reflexivity|]. vm_compute. reflexivity.
Qed.

(** C3.  A PC arriving under ["abc"] is sent one and the same message
    whether the phone of ["abc"] is connected and open or has never
    connected: the message does not report the liveness of the peer. *)
Theorem pc_arrival_not_told_phone_liveness :
  ∃ st st1 st2,
    run parse stringify [Connection 1 (QString "abc") (QString "phone")] new_RelayServer
      = Some st
    ∧ live st (phoneConnections st !! inl "abc") = true
    ∧ live new_RelayServer (phoneConnections new_RelayServer !! inl "abc") = false
    ∧ dispatch parse stringify (Connection 2 (QString "abc") (QString "pc")) st = Some st1
    ∧ dispatch parse stringify (Connection 2 (QString "abc") (QString "pc")) new_RelayServer
      = Some st2
    ∧ sent_to 2 (trace st1) = [stringify status_pc_registered]
    ∧ sent_to 2 (trace st2) = [stringify status_pc_registered].
Proof.
  do 3 eexists. split; [vm_compute; reflexivity|].
  split; [reflexivity|]. split; [reflexivity|].
  split; [vm_compute; reflexivity|]. split; [vm_compute; reflexivity|].
  split; vm_compute; reflexivity.
Qed.

(** C4 (counterexample).  The PC slot of ["abc"] holds socket 1, which has
    left the [OPEN] state; an ['auth'] envelope of the phone is then not
    passed on: the event changes nothing. *)
Lemma auth_not_forwarded_to_closing_peer :
  ∃ st,
    run parse stringify [Connection 1 (QString "abc") (QString "pc");
                         Connection 2 (QString "abc") (QString "phone");
                         Closing 1] new_RelayServer
      = Some st
    ∧ peer_slot "phone" (inl "abc") st = Some 1%positive
    ∧ parse (stringify auth) = Some auth
    ∧ is_auth (type_of auth) = true
    ∧ dispatch parse stringify (Message 2 (stringify auth)) st = Some st.
Proof.
  eexists. split; [vm_compute; reflexivity|].
  split; [reflexivity|]. split; [vm_compute; reflexivity|].
  split; [reflexivity|]. vm_compute. reflexivity.
Qed.

Lemma auth_forwarded_only_to_live_peer_witness :
  let st := mkRelayServer {[inl "abc" := 1%positive]} {[inl "abc" := 2%positive]}
                          {[1%positive := OPEN; 2%positive := OPEN]} ∅ [] in
  let st' := exec (handleMessage parse stringify 2 (inl "abc") "phone" (stringify auth)) st in
  (∀ peer, peer_slot "phone" (inl "abc") st = Some peer →
           readyState st !! peer = Some OPEN →
           st' = emit (WsSend peer (stringify auth)) st)
  ∧ (live st (peer_slot "phone" (inl "abc") st) = false → st' = st).
Proof.
  intros st.
  apply (auth_forwarded_only_to_live_peer parse stringify st 2 (inl "abc") "phone"
           (stringify auth) auth).
  - vm_compute. reflexivity.
  - reflexivity.
Defined.

Lemma relay_forwards_verbatim_in_order_witness :
  let st := mkRelayServer {[inl "abc" := 1%positive]} {[inl "abc" := 2%positive]}
                          {[1%positive := OPEN; 2%positive := OPEN]} ∅ [] in
  let messages := [stringify click; stringify move] in
  let st' := handleMessages parse stringify 2 (inl "abc") "phone" messages st in
  trace st' = trace st ++ map (WsSend 1) messages
  ∧ pcConnections st' = pcConnections st
  ∧ phoneConnections st' = phoneConnections st
  ∧ readyState st' = readyState st.
Proof.
  intros st messages.
  apply (relay_forwards_verbatim_in_order parse stringify st 2 (inl "abc") "phone" 1 messages).
  - right. reflexivity.
  - reflexivity.
  - reflexivity.
  - repeat constructor.
    + exists click. split; [vm_compute; reflexivity|]. split; [discriminate|reflexivity].
    + exists move. split; [vm_compute; reflexivity|]. split; [discriminate|reflexivity].
Defined.

Lemma supersede_closes_before_store_witness :
  let st := mkRelayServer {[inl "abc" := 1%positive]} ∅ {[1%positive := OPEN]}
                          {[1%positive := (inl "abc", "pc")]} [] in
  let st' := exec (registerConnection stringify "pc" 2 (inl "abc")) st in
  (∃ reason rest,
      trace st' = trace st ++ WsClose 1 1000 reason
                    :: MapSet (map_of "pc") (inl "abc") 2 :: rest
      ∧ Forall is_send rest)
  ∧ connections "pc" st' !! inl "abc" = Some 2%positive
  ∧ readyState st' !! 1%positive ≠ Some OPEN.
Proof.
  intros st.
  apply (supersede_closes_before_store stringify st "pc" 2 (inl "abc") 1).
  reflexivity.
Defined.

(** C7 (counterexample).  PC 2 displaces PC 1 under ["abc"]: the one close
    call carries the reason ["New PC connection"], not ["superseded"]. *)
Lemma superseded_reason_is_not_superseded :
  let st := mkRelayServer {[inl "abc" := 1%positive]} ∅ {[1%positive := OPEN]}
                          {[1%positive := (inl "abc", "pc")]} [] in
  let st' := exec (registerConnection stringify "pc" 2 (inl "abc")) st in
  closes_of (trace st') = [(1%positive, 1000, "New PC connection")]
  ∧ closes_of (trace st') ≠ [(1%positive, 1000, "superseded")].
Proof. split; [vm_compute; reflexivity | vm_compute; discriminate]. Qed.

Lemma superseded_close_code_and_reason_witness :
  let st := mkRelayServer ∅ {[inl "abc" := 1%positive]} {[1%positive := OPEN]}
                          {[1%positive := (inl "abc", "phone")]} [] in
  closes_of (trace (exec (registerConnection stringify "phone" 2 (inl "abc")) st))
  = closes_of (trace st) ++ [(1%positive, 1000, "New phone connection")].
Proof.
  intros st.
  apply (superseded_close_code_and_reason stringify st "phone" 2 (inl "abc") 1).
  reflexivity.
Defined.

Lemma malformed_handshake_closed_witness :
  let st := mkRelayServer {[inl "abc" := 1%positive]} ∅
                          {[1%positive := OPEN; 2%positive := OPEN]}
                          {[1%positive := (inl "abc", "pc")]} [] in
  let st' := exec (onConnection stringify 2 (QString "abc") (QString "tablet")) st in
  (∃ reason, trace st' = trace st ++ [WsClose 2 1008 reason])
  ∧ pcConnections st' = pcConnections st
  ∧ phoneConnections st' = phoneConnections st
  ∧ listeners st' = listeners st.
Proof.
  intros st.
  apply (malformed_handshake_closed stringify st 2 (QString "abc") (QString "tablet")).
  do 3 right. split; discriminate.
Defined.


Lemma tokens_do_not_interfere_witness :
  ∃ st st',
    run parse stringify [Connection 1 (QString "abc") (QString "pc");
                         Connection 2 (QString "xyz") (QString "pc");
                         Connection 3 (QString "abc") (QString "phone");
                         Connection 4 (QString "xyz") (QString "phone")] new_RelayServer
      = Some st
    ∧ dispatch parse stringify (Message 3 (stringify click)) st = Some st'
    ∧ pcConnections st' !! inl "xyz" = pcConnections st !! inl "xyz"
    ∧ phoneConnections st' !! inl "xyz" = phoneConnections st !! inl "xyz"
    ∧ ∃ new, trace st' = trace st ++ new
             ∧ ∀ ws, registered_under (inl "xyz") st ws → sent_to ws new = [].
Proof.
  do 2 eexists.
  split; [vm_compute; reflexivity|].
  split; [vm_compute; reflexivity|].
  eapply (tokens_do_not_interfere parse stringify _ (Message 3 (stringify click)) _
            (inl "abc") (inl "xyz")).
  - apply (reachable_consistent parse stringify).
    exists [Connection 1 (QString "abc") (QString "pc");
            Connection 2 (QString "xyz") (QString "pc");
            Connection 3 (QString "abc") (QString "phone");
            Connection 4 (QString "xyz") (QString "phone")].
    vm_compute. reflexivity.
  - vm_compute. reflexivity.
  - reflexivity.
  - discriminate.
Defined.

Lemma close_clears_slot_witness :
  let st := mkRelayServer {[inl "abc" := 2%positive]} ∅
                          {[1%positive := CLOSING; 2%positive := OPEN]}
                          {[1%positive := (inl "abc", "pc");
                            2%positive := (inl "abc", "pc")]} [] in
  ∃ st', dispatch parse stringify (Close 1) st = Some st'
         ∧ connections "pc" st' !! inl "abc" = None.
Proof.
  intros st.
  apply (close_clears_slot parse stringify st 1 (inl "abc") "pc").
  reflexivity.
Defined.

(** * The message history *)

Lemma getForCurrentUser_app identity (db1 db2 : list (nat * MessageDoc)) :
  getForCurrentUser identity (db1 ++ db2)
  = getForCurrentUser identity db1 ++ getForCurrentUser identity db2.
Proof. destruct identity; simpl; [apply filter_app | done]. Qed.

(** X12.  A message created by an authenticated caller is read back by that
    caller: the query returns what it returned before, followed by the new
    document, which carries the text given, the caller's author key and the
    clock reading, under the id the mutation returned. *)
Theorem create_then_get identity args_text now (db : list (nat * MessageDoc)) :
  ∃ messageId db',
    createForCurrentUser args_text (Some identity) now db = inr (messageId, db')
    ∧ getForCurrentUser (Some identity) db'
      = getForCurrentUser (Some identity) db
        ++ [(messageId, mkMessageDoc args_text (author_of identity) now)].
Proof.
  do 2 eexists. split; [reflexivity|].
  rewrite getForCurrentUser_app. f_equal. simpl.
  rewrite filter_cons_True; [|done]. by rewrite filter_nil.
Qed.

(** X13.  What a caller reads is not changed by a message of a caller with a
    different author key, nor by a call that was not authenticated. *)
Theorem create_leaves_other_authors reader call (db : list (nat * MessageDoc)) :
  (∀ writer, fst (fst call) = Some writer → author_of writer ≠ author_of reader) →
  getForCurrentUser (Some reader) (submit db call)
  = getForCurrentUser (Some reader) db.
Proof.
  destruct call as [[[writer|] args_text] now]; unfold submit; simpl; [|done].
  intros Hne. rewrite filter_app, filter_cons_False, filter_nil, app_nil_r; [done|].
  simpl. by apply Hne.
Qed.

Lemma history_snoc calls call : history (calls ++ [call]) = submit (history calls) call.
Proof. unfold history. by rewrite foldl_app. Qed.

(** X14.  After any sequence of calls on an empty table, a caller reads exactly
    the texts submitted under its author key, in the order submitted:
    nothing of another author, nothing lost, nothing twice. *)
Theorem history_reads_own_texts reader calls :
  text ∘ snd <$> getForCurrentUser (Some reader) (history calls)
  = texts_of (author_of reader) calls.
Proof.
  induction calls as [|call calls IH] using rev_ind; [done|].
  rewrite history_snoc. unfold texts_of. rewrite omap_app.
  fold (texts_of (author_of reader) calls). rewrite <- IH.
  destruct call as [[[writer|] args_text] now]; unfold submit; simpl.
  - rewrite filter_app, fmap_app. f_equal.
    destruct (decide (author_of writer = author_of reader)) as [Heq|Hne].
    + by rewrite filter_cons_True, filter_nil.
    + by rewrite filter_cons_False, filter_nil.
  - by rewrite app_nil_r.
Qed.

(** * Concrete instances of the further properties *)

Lemma malformed_message_reported_witness :
  exec (handleMessage parse stringify 1 (inl "abc") "phone" "oops") new_RelayServer
  = emit (WsSend 1 (stringify error_invalid_format)) new_RelayServer.
Proof.
  apply (malformed_message_reported parse stringify new_RelayServer 1 (inl "abc")
           "phone" "oops").
  left. vm_compute. reflexivity.
Defined.

Lemma disconnect_notifies_live_peer_witness :
  let st := mkRelayServer {[inl "abc" := 1%positive]} {[inl "abc" := 2%positive]}
                          {[1%positive := CLOSED; 2%positive := OPEN]} ∅ [] in
  ∃ new,
    trace (exec (handleDisconnection stringify (inl "abc") "pc") st) = trace st ++ new
    ∧ closes_of new = []
    ∧ ∀ w, sent_to w new
           = if decide (peer_slot "pc" (inl "abc") st = Some w
                        ∧ readyState st !! w = Some OPEN)
             then [stringify (offline_status "pc")] else [].
Proof.
  intros st. apply (disconnect_notifies_live_peer stringify st (inl "abc") "pc").
  left. reflexivity.
Defined.

Lemma valid_handshake_registers_witness :
  let st := new_RelayServer in
  let st' := exec (onConnection stringify 1 (QString "abc") (QString "phone")) st in
  connections "phone" st' !! inl "abc" = Some 1%positive
  ∧ listeners st' !! 1%positive = Some (inl "abc", "phone")
  ∧ peer_slot "phone" (inl "abc") st' = peer_slot "phone" (inl "abc") st
  ∧ (∀ t, t ≠ inl "abc" →
          pcConnections st' !! t = pcConnections st !! t
          ∧ phoneConnections st' !! t = phoneConnections st !! t)
  ∧ closes_of (trace st')
    = closes_of (trace st)
      ++ match connections "phone" st !! inl "abc" with
         | Some old => [(old, 1000, supersede_reason "phone")]
         | None => []
         end.
Proof.
  intros st. apply (valid_handshake_registers stringify st 1 "abc" "phone").
  - discriminate.
  - right. reflexivity.
Defined.

Lemma register_then_disconnect_restores_registry_witness :
  let st := mkRelayServer ∅ {[inl "abc" := 2%positive]} {[2%positive := OPEN]}
                          {[2%positive := (inl "abc", "phone")]} [] in
  let st' := exec (handleDisconnection stringify (inl "abc") "pc")
                  (exec (registerConnection stringify "pc" 1 (inl "abc")) st) in
  pcConnections st' = pcConnections st ∧ phoneConnections st' = phoneConnections st.
Proof.
  intros st.
  apply (register_then_disconnect_restores_registry stringify st 1 (inl "abc") "pc").
  - left. reflexivity.
  - reflexivity.
Defined.

Lemma registration_redirects_routing_witness :
  let st := mkRelayServer {[inl "abc" := 1%positive]} {[inl "abc" := 3%positive]}
                          {[1%positive := OPEN; 2%positive := OPEN; 3%positive := OPEN]}
                          ∅ [] in
  let st1 := exec (registerConnection stringify "pc" 2 (inl "abc")) st in
  exec (handleMessage parse stringify 3 (inl "abc") "phone" (stringify click)) st1
  = emit (WsSend 2 (stringify click)) st1.
Proof.
  intros st.
  apply (registration_redirects_routing parse stringify st 2 (inl "abc") "pc" 3 "phone"
           (stringify click)).
  - left. split; reflexivity.
  - reflexivity.
  - vm_compute. discriminate.
  - exists click. split; [vm_compute; reflexivity|]. split; [discriminate|reflexivity].
Defined.

Lemma error_then_close_notifies_twice_witness :
  let st := mkRelayServer {[inl "abc" := 1%positive]} {[inl "abc" := 2%positive]}
                          {[1%positive := OPEN; 2%positive := OPEN]}
                          {[1%positive := (inl "abc", "pc");
                            2%positive := (inl "abc", "phone")]} [] in
  ∃ st1 st2,
    dispatch parse stringify (Error 1) st = Some st1
    ∧ dispatch parse stringify (Close 1) st1 = Some st2
    ∧ connections "pc" st1 !! inl "abc" = None
    ∧ connections "pc" st2 !! inl "abc" = None
    ∧ sent_to 2 (trace st2)
      = sent_to 2 (trace st)
        ++ [stringify (offline_status "pc"); stringify (offline_status "pc")].
Proof.
  intros st.
  apply (error_then_close_notifies_twice parse stringify st 1 (inl "abc") "pc" 2).
  - left. reflexivity.
  - reflexivity.
  - reflexivity.
  - discriminate.
  - reflexivity.
Defined.

Lemma socket_in_one_slot_witness :
  ∃ st,
    run parse stringify [Connection 1 (QString "abc") (QString "pc");
                         Connection 2 (QString "abc") (QString "phone");
                         Connection 3 (QString "xyz") (QString "pc")] new_RelayServer
      = Some st
    ∧ (pcConnections st !! inl "abc" = Some 1%positive →
       phoneConnections st !! inl "xyz" ≠ Some 1%positive)
    ∧ (registered_under (inl "abc") st 1 → registered_under (inl "xyz") st 1 →
       @inl string positive "abc" = inl "xyz").
Proof.
  eexists. split; [vm_compute; reflexivity|].
  apply (socket_in_one_slot parse stringify).
  exists [Connection 1 (QString "abc") (QString "pc");
          Connection 2 (QString "abc") (QString "phone");
          Connection 3 (QString "xyz") (QString "pc")].
  vm_compute. reflexivity.
Defined.

Lemma closing_connection_is_unregistered_witness :
  ∃ st st',
    run parse stringify [Connection 1 (QString "abc") (QString "pc");
                         Connection 2 (QString "abc") (QString "phone")] new_RelayServer
      = Some st
    ∧ dispatch parse stringify (Close 1) st = Some st'
    ∧ ∀ t, ¬ registered_under t st' 1.
Proof.
  do 2 eexists. split; [vm_compute; reflexivity|].
  split; [vm_compute; reflexivity|].
  eapply (closing_connection_is_unregistered parse stringify _ 1 _).
  - exists [Connection 1 (QString "abc") (QString "pc");
            Connection 2 (QString "abc") (QString "phone")].
    vm_compute. reflexivity.
  - left. vm_compute. reflexivity.
Defined.

Lemma sends_only_to_open_peers_witness :
  ∃ st st',
    run parse stringify [Connection 1 (QString "abc") (QString "pc");
                         Connection 2 (QString "abc") (QString "phone");
                         Closing 1] new_RelayServer
      = Some st
    ∧ dispatch parse stringify (Message 2 (stringify click)) st = Some st'
    ∧ ∃ new, trace st' = trace st ++ new
             ∧ ∀ w data, WsSend w data ∈ new →
                         w = 2%positive ∨ readyState st !! w = Some OPEN.
Proof.
  do 2 eexists. split; [vm_compute; reflexivity|].
  split; [vm_compute; reflexivity|].
  apply (sends_only_to_open_peers parse stringify _ (Message 2 (stringify click)) _).
  vm_compute. reflexivity.
Defined.

Lemma arrival_notifications_witness :
  ∃ st st',
    run parse stringify [Connection 1 (QString "abc") (QString "phone")] new_RelayServer
      = Some st
    ∧ dispatch parse stringify (Connection 2 (QString "abc") (QString "pc")) st = Some st'
    ∧ ∃ new,
        trace st' = trace st ++ new
        ∧ sent_to 2 new
          = [stringify (registered_status "pc" (live st (peer_slot "pc" (inl "abc") st)))]
        ∧ (∀ p, peer_slot "pc" (inl "abc") st = Some p →
                sent_to p new = if live st (peer_slot "pc" (inl "abc") st)
                                then [stringify (online_status "pc")] else [])
        ∧ (∀ w, w ≠ 2%positive → peer_slot "pc" (inl "abc") st ≠ Some w →
                sent_to w new = []).
Proof.
  do 2 eexists. split; [vm_compute; reflexivity|].
  split; [vm_compute; reflexivity|].
  apply (arrival_notifications parse stringify _ 2 "abc" "pc" _).
  - exists [Connection 1 (QString "abc") (QString "phone")]. vm_compute. reflexivity.
  - discriminate.
  - left. reflexivity.
  - vm_compute. reflexivity.
Defined.

Lemma create_leaves_other_authors_witness :
  let reader := mkUserIdentity (Some "ann@example.org") "issuer|ann" in
  let writer := mkUserIdentity None "issuer|bob" in
  let db := [(0%nat, mkMessageDoc "open the calculator" "ann@example.org" 1700)] in
  getForCurrentUser (Some reader) (submit db (Some writer, "lock the screen", 1800))
  = getForCurrentUser (Some reader) db.
Proof.
  intros reader writer db.
  apply (create_leaves_other_authors reader (Some writer, "lock the screen", 1800) db).
  intros w [= <-]. discriminate.
Defined.
